(** * A model of the coroutine demo: Generator, Task and SleepAwaiter

    The C++ source (main.cpp) defines two coroutine return types,
    [Generator<T>] and [Task<T>], one awaiter, [SleepAwaiter], and a few
    coroutines written against them.  A coroutine body is embedded as the
    finite tree of the effects it performs ([std::cout] lines, [co_yield],
    [co_await], [co_return], a thrown exception); the suspended execution
    point kept in the coroutine frame is the part of the tree still to be
    run.  The promise types, [coroutine_handle::resume]/[done] and the member
    functions of the two structs are functions on that frame. *)

From Stdlib Require Import ZArith List String DecimalString DecimalPos DecimalZ.
From stdpp Require Import gmap strings list fin_maps.

Open Scope Z_scope.

(** ** Shared vocabulary *)

(** The exception object a [std::exception_ptr] points to, identified by its
    message.  A null [std::exception_ptr] is [None]. *)
Inductive exn : Type := Exn (what : string).

(** How a call of a member function ends: it returns, it throws, or its
    behaviour is undefined by the C++ standard (here: [resume] on a coroutine
    suspended at its final suspend point). *)
Inductive result (A : Type) : Type :=
| Returns (a : A)
| Rethrows (e : exn)
| Undefined.
Arguments Returns {A} a.
Arguments Rethrows {A} e.
Arguments Undefined {A}.

(** [std::suspend_always] and [std::suspend_never]. *)
Inductive trivial_awaitable : Type := suspend_always | suspend_never.

(** The status vocabulary of the specification's State Record.  [Running]
    only holds while a [resume] call is in progress, so no state seen between
    two calls has it. *)
Inductive status : Type := Created | Running | Suspended | Completed | Failed.

(** [int] arithmetic.  Overflow of a signed [int] is undefined in C++; the
    model wraps around in two's complement, as the usual targets do. *)
Definition wrap_int (z : Z) : Z := (z + 2 ^ 31) mod 2 ^ 32 - 2 ^ 31.
Definition int_add (a b : Z) : Z := wrap_int (a + b).

(** [std::to_string(int)] and [operator<<] on an [int]: decimal digits. *)
Definition to_string (z : Z) : string := NilZero.string_of_int (Z.to_int z).

(** ** Generator<T> *)

Module Generator.
Section WithT.
Context {T : Type}.

(** The body of a coroutine whose return type is [Generator<T>].  Every
    statement that writes a line to [std::cout] is a [cout] node; falling
    off the end of the function is [co_return_void].  Generator bodies of
    this program only yield; they never [co_await]. *)
Inductive body : Type :=
| cout (line : string) (rest : body)
| co_yield (v : T) (rest : body)
| co_return_void
| throw (e : exn).

Record promise_type : Type := {
  current_value : T;
  exception : option exn
}.

Definition initial_suspend : trivial_awaitable := suspend_always.
Definition final_suspend : trivial_awaitable := suspend_always.

Definition yield_value (value : T) (p : promise_type) : promise_type :=
  {| current_value := value; exception := exception p |}.

Definition return_void (p : promise_type) : promise_type := p.

Definition unhandled_exception (e : exn) (p : promise_type) : promise_type :=
  {| current_value := current_value p; exception := Some e |}.

(** Where the coroutine is suspended. *)
Inductive point : Type :=
| at_initial (b : body)
| at_yield (rest : body)
| at_final.

(** The coroutine frame behind [handle], together with what the program
    has written to [std::cout] since the generator was created. *)
Record state : Type := {
  promise : promise_type;
  suspended : point;
  stdout : list string
}.

(** Runs the body from an execution point up to the next [co_yield], the end
    of the body, or a thrown exception (which the coroutine machinery hands
    to [unhandled_exception] before suspending at [final_suspend]). *)
Fixpoint run (b : body) (p : promise_type) (out : list string) : state :=
  match b with
  | cout line rest => run rest p (out ++ [line])
  | co_yield v rest =>
      {| promise := yield_value v p; suspended := at_yield rest; stdout := out |}
  | co_return_void =>
      {| promise := return_void p; suspended := at_final; stdout := out |}
  | throw e =>
      {| promise := unhandled_exception e p; suspended := at_final; stdout := out |}
  end.

(** [handle.done()]. *)
Definition done (g : state) : bool :=
  match suspended g with
  | at_final => true
  | _ => false
  end.

(** [handle.resume()]; [None] is the undefined behaviour of resuming a
    coroutine that is suspended at its final suspend point. *)
Definition resume (g : state) : option state :=
  match suspended g with
  | at_initial b => Some (run b (promise g) (stdout g))
  | at_yield rest => Some (run rest (promise g) (stdout g))
  | at_final => None
  end.

(** Calling the coroutine function: the frame is allocated, the promise is
    default-initialised ([init] is whatever that leaves in [current_value];
    the [exception_ptr] is null) and [initial_suspend] decides whether the
    body starts running before the [Generator] is handed to the caller. *)
Definition create (init : T) (b : body) : state :=
  let p := {| current_value := init; exception := None |} in
  match initial_suspend with
  | suspend_always => {| promise := p; suspended := at_initial b; stdout := [] |}
  | suspend_never => run b p []
  end.

(** [bool next()]. *)
Definition next (g : state) : result bool * state :=
  match resume g with
  | None => (Undefined, g)
  | Some g' =>
      match exception (promise g') with
      | Some e => (Rethrows e, g')
      | None => (Returns (negb (done g')), g')
      end
  end.

(** [T value() const]: a plain read of the promise, with no check. *)
Definition value (g : state) : result T :=
  Returns (current_value (promise g)).

(** The specification's status, read off the frame. *)
Definition status_of (g : state) : status :=
  match suspended g with
  | at_initial _ => Created
  | at_yield _ => Suspended
  | at_final =>
      match exception (promise g) with
      | Some _ => Failed
      | None => Completed
      end
  end.

(** The promise holds an exception only once the body has ended: every
    state reached from [create] by [resume] satisfies this. *)
Definition wf (g : state) : Prop :=
  exception (promise g) = None \/ suspended g = at_final.

(** The driver's loop [while (g.next()) { ... g.value() ... }], unrolled at
    most [fuel] times: the values read, how the last [next] ended, and the
    final state. *)
Fixpoint drain (fuel : nat) (g : state) : list T * option (result bool) * state :=
  match fuel with
  | O => ([], None, g)
  | S fuel' =>
      match next g with
      | (Returns true, g') =>
          match value g' with
          | Returns v =>
              let '(vs, last, g'') := drain fuel' g' in (v :: vs, last, g'')
          | _ => ([], None, g')
          end
      | (r, g') => ([], Some r, g')
      end
  end.

(** The state after [n] successive calls of [next], whatever they return. *)
Fixpoint advance (n : nat) (g : state) : state :=
  match n with
  | O => g
  | S n' => advance n' (snd (next g))
  end.

(** What a body does when it is run to its end: the values it yields, the
    lines it writes, and the exception it ends with, if any. *)
Fixpoint yields (b : body) : list T :=
  match b with
  | cout _ rest => yields rest
  | co_yield v rest => v :: yields rest
  | co_return_void => []
  | throw _ => []
  end.

Fixpoint lines (b : body) : list string :=
  match b with
  | cout line rest => line :: lines rest
  | co_yield _ rest => lines rest
  | co_return_void => []
  | throw _ => []
  end.

Fixpoint ending (b : body) : option exn :=
  match b with
  | cout _ rest => ending rest
  | co_yield _ rest => ending rest
  | co_return_void => None
  | throw e => Some e
  end.

(** The next run segment of a body: the lines it writes, in order, and
    where it stops: at a [co_yield], at the end of the function, or at a
    thrown exception. *)
Inductive stop : Type :=
| stops_at_yield (v : T) (rest : body)
| stops_at_end
| stops_at_throw (e : exn).

Fixpoint segment (b : body) : list string * stop :=
  match b with
  | cout line rest => let '(ls, s) := segment rest in (line :: ls, s)
  | co_yield v rest => ([], stops_at_yield v rest)
  | co_return_void => ([], stops_at_end)
  | throw e => ([], stops_at_throw e)
  end.

(** How the [next] call that reaches the end of the body [b] ends. *)
Definition last_next (b : body) : result bool :=
  match ending b with
  | Some e => Rethrows e
  | None => Returns false
  end.

(** A run segment ends in one of three ways. *)
Inductive segment_end (p : promise_type) (g' : state) : Prop :=
| ends_yielding (v : T) (rest : body) :
    suspended g' = at_yield rest →
    promise g' = yield_value v p →
    segment_end p g'
| ends_returning :
    suspended g' = at_final →
    promise g' = p →
    segment_end p g'
| ends_throwing (e : exn) :
    suspended g' = at_final →
    promise g' = unhandled_exception e p →
    segment_end p g'.
End WithT.
Arguments body : clear implicits.
Arguments promise_type : clear implicits.
Arguments point : clear implicits.
Arguments state : clear implicits.
End Generator.

(** [fibonacci]: the loop [for (int i = 0; i < count; ++i)] runs
    [max count 0] times; [n] counts the iterations left. *)
Fixpoint fibonacci_loop (n : nat) (a b : Z) : Generator.body Z :=
  match n with
  | O =>
      Generator.cout "[Coroutine] Fibonacci generator finishing"
        Generator.co_return_void
  | S n' =>
      Generator.cout ("[Coroutine] About to yield: " ++ to_string a)
        (Generator.co_yield a
           (Generator.cout ("[Coroutine] Resumed after yielding " ++ to_string a)
              (let temp := a in
               fibonacci_loop n' b (int_add temp b))))
  end.

(** The Fibonacci numbers, as a reference for what [fibonacci] yields. *)
Fixpoint fib (n : nat) : Z :=
  match n with
  | O => 0
  | S n' =>
      match n' with
      | O => 1
      | S n'' => fib n' + fib n''
      end
  end.

Definition fibonacci (count : Z) : Generator.body Z :=
  Generator.cout "[Coroutine] Starting Fibonacci generator"
    (fibonacci_loop (Z.to_nat count) 0 1).

(** [range]: [n] is the number of iterations left, [end - i] when positive.
    [++i] cannot overflow, since [i < end]. *)
Fixpoint range_loop (n : nat) (i : Z) : Generator.body Z :=
  match n with
  | O => Generator.cout "[Coroutine] Range complete" Generator.co_return_void
  | S n' => Generator.co_yield i (range_loop n' (i + 1))
  end.

Definition range (start end_ : Z) : Generator.body Z :=
  Generator.cout
    ("[Coroutine] Range starting from " ++ to_string start ++ " to " ++ to_string end_)
    (range_loop (Z.to_nat (end_ - start)) start).

Definition lifecycle_demo : Generator.body string :=
  Generator.cout "  [Lifecycle] Coroutine body starts executing"
    (Generator.co_yield "First"%string
       (Generator.cout "  [Lifecycle] Between first and second yield"
          (Generator.co_yield "Second"%string
             (Generator.cout "  [Lifecycle] Between second and third yield"
                (Generator.co_yield "Third"%string
                   (Generator.cout "  [Lifecycle] After last yield, before return"
                      Generator.co_return_void)))))).

(** ** The sleep awaiter *)

(** What a coroutine touches outside its own frame: the lines written to
    [std::cout], the time in milliseconds, and the detached threads started
    by [SleepAwaiter::await_suspend], each given by the time at which its
    [std::this_thread::sleep_for] ends.  Every such thread captured the
    handle of the one task of the state it belongs to. *)
Record world : Type := {
  stdout : list string;
  now : Z;
  detached : list Z
}.

Definition print (line : string) (w : world) : world :=
  {| stdout := stdout w ++ [line]; now := now w; detached := detached w |}.

(** [std::thread(...).detach()] of a worker that sleeps until [wake]. *)
Definition spawn (wake : Z) (w : world) : world :=
  {| stdout := stdout w; now := now w; detached := detached w ++ [wake] |}.

(** [duration] is the [count()] of the [std::chrono::milliseconds]. *)
Record SleepAwaiter : Type := { duration : Z }.

Definition await_ready (a : SleepAwaiter) (w : world) : bool * world :=
  (duration a <=? 0, print "[Awaiter] Checking if sleep is needed..." w).

Definition await_suspend (a : SleepAwaiter) (w : world) : world :=
  let w1 := print ("[Awaiter] Suspending for " ++ to_string (duration a) ++ "ms") w in
  spawn (now w1 + duration a) w1.

Definition await_resume (a : SleepAwaiter) (w : world) : world :=
  print "[Awaiter] Resumed after sleep" w.

Definition sleep_for (ms : Z) : SleepAwaiter := {| duration := ms |}.

(** ** Task<T> *)

Module Task.
Section WithT.
Context {T : Type}.
(** [operator<<] on a [T], used by [return_value]. *)
Context (show : T -> string).

(** The body of a coroutine whose return type is [Task<T>]: the promise
    has [return_value] and no [yield_value]. *)
Inductive body : Type :=
| cout (line : string) (rest : body)
| co_await (a : SleepAwaiter) (rest : body)
| co_return (v : T)
| throw (e : exn).

Record promise_type : Type := {
  value : T;
  exception : option exn
}.

Definition initial_suspend : trivial_awaitable := suspend_never.
Definition final_suspend : trivial_awaitable := suspend_always.

Definition return_value (v : T) (p : promise_type) (w : world) : promise_type * world :=
  ({| value := v; exception := exception p |},
   print ("[Task Promise] Storing return value: " ++ show v) w).

Definition unhandled_exception (e : exn) (p : promise_type) : promise_type :=
  {| value := value p; exception := Some e |}.

Inductive point : Type :=
| at_initial (b : body)
| at_await (a : SleepAwaiter) (rest : body)
| at_final.

(** The coroutine frame behind [handle] and the world around it. *)
Record state : Type := {
  promise : promise_type;
  suspended : point;
  env : world
}.

(** Runs the body up to the first [co_await] whose awaiter is not ready,
    the [co_return], or a thrown exception.  A [co_await] asks
    [await_ready]; when that is true the coroutine does not suspend and
    goes on with [await_resume], otherwise [await_suspend] runs and the
    coroutine stays suspended there. *)
Fixpoint run (b : body) (p : promise_type) (w : world) : state :=
  match b with
  | cout line rest => run rest p (print line w)
  | co_await a rest =>
      let '(ready, w1) := await_ready a w in
      if ready then run rest p (await_resume a w1)
      else {| promise := p; suspended := at_await a rest; env := await_suspend a w1 |}
  | co_return v =>
      let '(p', w') := return_value v p w in
      {| promise := p'; suspended := at_final; env := w' |}
  | throw e =>
      {| promise := unhandled_exception e p; suspended := at_final; env := w |}
  end.

(** [handle.done()]. *)
Definition done (t : state) : bool :=
  match suspended t with
  | at_final => true
  | _ => false
  end.

(** [handle.resume()], by whichever thread calls it; [None] is the
    undefined behaviour of resuming a coroutine suspended at its final
    suspend point.  A coroutine suspended in a [co_await] goes on with
    [await_resume]. *)
Definition resume (t : state) : option state :=
  match suspended t with
  | at_initial b => Some (run b (promise t) (env t))
  | at_await a rest => Some (run rest (promise t) (await_resume a (env t)))
  | at_final => None
  end.

(** Calling the coroutine function at time [t0]; [init] is what
    default-initialisation leaves in the promise's [value]. *)
Definition create (t0 : Z) (init : T) (b : body) : state :=
  let p := {| value := init; exception := None |} in
  let w := {| stdout := []; now := t0; detached := [] |} in
  match initial_suspend with
  | suspend_always => {| promise := p; suspended := at_initial b; env := w |}
  | suspend_never => run b p w
  end.

(** [T get()].  Nothing in it waits: no sleep, no join, no condition.
    ([resume] cannot be undefined where it is called, the coroutine not
    being done.) *)
Definition get (t : state) : result T * state :=
  let t1 :=
    if negb (done t) then
      match resume t with
      | Some t' => t'
      | None => t
      end
    else t in
  match exception (promise t1) with
  | Some e => (Rethrows e, t1)
  | None => (Returns (value (promise t1)), t1)
  end.

(** [bool is_ready() const]. *)
Definition is_ready (t : state) : bool := done t.

(** The body of the lambda run by a detached thread: it sleeps until
    [wake], writes its line and calls [handle.resume()]. *)
Definition worker (wake : Z) (t : state) : result unit * state :=
  let w := env t in
  let w1 := {| stdout := stdout w; now := Z.max (now w) wake; detached := detached w |} in
  let w2 := print "[Awaiter Thread] Sleep complete, resuming coroutine" w1 in
  let t1 := {| promise := promise t; suspended := suspended t; env := w2 |} in
  match resume t1 with
  | Some t2 => (Returns tt, t2)
  | None => (Undefined, t1)
  end.

(** The oldest detached thread runs to its end. *)
Definition fire (t : state) : result unit * state :=
  match detached (env t) with
  | [] => (Returns tt, t)
  | wake :: others =>
      let w := env t in
      worker wake
        {| promise := promise t; suspended := suspended t;
           env := {| stdout := stdout w; now := now w; detached := others |} |}
  end.

(** The specification's status, read off the frame. *)
Definition status_of (t : state) : status :=
  match suspended t with
  | at_initial _ => Created
  | at_await _ _ => Suspended
  | at_final =>
      match exception (promise t) with
      | Some _ => Failed
      | None => Completed
      end
  end.

(** The promise holds an exception only once the body has ended. *)
Definition wf (t : state) : Prop :=
  exception (promise t) = None \/ suspended t = at_final.

(** What a body does when it is run to its end: the number of [co_await]s
    that suspend it, the time it sleeps in them, and how it ends. *)
Fixpoint suspensions (b : body) : nat :=
  match b with
  | cout _ rest => suspensions rest
  | co_await a rest =>
      if duration a <=? 0 then suspensions rest else S (suspensions rest)
  | co_return _ => 0%nat
  | throw _ => 0%nat
  end.

Fixpoint total_sleep (b : body) : Z :=
  match b with
  | cout _ rest => total_sleep rest
  | co_await a rest =>
      (if duration a <=? 0 then 0 else duration a) + total_sleep rest
  | co_return _ => 0
  | throw _ => 0
  end.

Fixpoint ending (b : body) : result T :=
  match b with
  | cout _ rest => ending rest
  | co_await _ rest => ending rest
  | co_return v => Returns v
  | throw e => Rethrows e
  end.

(** The next [n] detached threads run to their end, one after the other,
    as long as none of them does something undefined. *)
Fixpoint fire_all (n : nat) (t : state) : result unit * state :=
  match n with
  | O => (Returns tt, t)
  | S n' =>
      match fire t with
      | (Returns _, t') => fire_all n' t'
      | bad => bad
      end
  end.

(** What a run segment leaves behind: the clock is untouched, and a worker
    is started exactly when the segment ends suspended in a [co_await]. *)
Inductive segment_end (p : promise_type) (w : world) (t' : state) : Prop :=
| ends_awaiting a (rest : body) :
    suspended t' = at_await a rest →
    promise t' = p →
    duration a > 0 →
    now (env t') = now w →
    detached (env t') = detached w ++ [now w + duration a] →
    segment_end p w t'
| ends_with_value (v : T) :
    suspended t' = at_final →
    promise t' = {| value := v; exception := exception p |} →
    now (env t') = now w →
    detached (env t') = detached w →
    segment_end p w t'
| ends_with_exception (e : exn) :
    suspended t' = at_final →
    promise t' = unhandled_exception e p →
    now (env t') = now w →
    detached (env t') = detached w →
    segment_end p w t'.
End WithT.
Arguments body : clear implicits.
Arguments promise_type : clear implicits.
Arguments point : clear implicits.
Arguments state : clear implicits.
End Task.

(** [compute_answer]: the loop [for (int i = 1; i <= 10; ++i) result += i],
    with [n] iterations left to try. *)
Fixpoint compute_answer_loop (n : nat) (i result : Z) : Z :=
  match n with
  | O => result
  | S n' =>
      if i <=? 10 then compute_answer_loop n' (i + 1) (int_add result i)
      else result
  end.

Definition compute_answer : Task.body Z :=
  Task.cout "[Task] Starting computation..."
    (Task.cout "[Task] Performing complex calculations..."
       (let result := compute_answer_loop 10 1 0 in
        Task.cout "[Task] Computation complete!"
          (Task.co_return result))).

Definition format_result (value : Z) : Task.body string :=
  Task.cout ("[Format Task] Formatting value: " ++ to_string value)
    (Task.co_return ("The answer is: " ++ to_string value)%string).

Definition delayed_computation : Task.body Z :=
  Task.cout "[Delayed Task] Starting..."
    (Task.cout "[Delayed Task] About to sleep for 500ms"
       (Task.co_await (sleep_for 500)
          (Task.cout "[Delayed Task] Woke up! Computing result..."
             (Task.co_return 42)))).

(** ** Ownership of the coroutine handle *)

(** [Generator] and [Task] have the same special member functions: a
    constructor from a handle, a destructor, deleted copy operations, a move
    constructor and a move assignment.  They are modelled once, over any
    type of coroutine frame. *)
Module Owner.
Section WithFrame.
Context {Frame : Type}.

(** The part of memory these functions touch.  A coroutine handle is
    [None] when null, [Some a] when it points to the frame created as the
    [a]-th one; an object is named by its address [this]. *)
Record memory : Type := {
  frames : gmap nat Frame;
  objects : gmap nat (option nat);
  allocated : nat;
  destroyed : list nat
}.

Definition empty : memory :=
  {| frames := ∅; objects := ∅; allocated := 0%nat; destroyed := [] |}.

(** How a special member function ends: normally, or not at all because
    it names an object outside its lifetime, or with [destroy] called on a
    frame that is not there (any more). *)
Inductive outcome : Type :=
| Ok (m : memory)
| NoSuchObject
| DestroyedTwice.

(** [handle.destroy()] on a non-null handle. *)
Definition destroy (a : nat) (m : memory) : outcome :=
  match frames m !! a with
  | Some _ =>
      Ok {| frames := delete a (frames m); objects := objects m;
            allocated := allocated m; destroyed := a :: destroyed m |}
  | None => DestroyedTwice
  end.

(** [if (handle) handle.destroy();] *)
Definition destroy_if (handle : option nat) (m : memory) : outcome :=
  match handle with
  | Some a => destroy a m
  | None => Ok m
  end.

Definition set_handle (this : nat) (handle : option nat) (m : memory) : memory :=
  {| frames := frames m; objects := <[this := handle]> (objects m);
     allocated := allocated m; destroyed := destroyed m |}.

(** A call of a coroutine function: the frame is allocated and
    [get_return_object] builds the object at [this] around its handle. *)
Definition construct (this : nat) (f : Frame) (m : memory) : outcome :=
  match objects m !! this with
  | Some _ => NoSuchObject
  | None =>
      Ok {| frames := <[allocated m := f]> (frames m);
            objects := <[this := Some (allocated m)]> (objects m);
            allocated := S (allocated m);
            destroyed := destroyed m |}
  end.

(** The destructor; the lifetime of the object at [this] ends. *)
Definition destructor (this : nat) (m : memory) : outcome :=
  match objects m !! this with
  | None => NoSuchObject
  | Some handle =>
      match destroy_if handle m with
      | Ok m' =>
          Ok {| frames := frames m'; objects := delete this (objects m');
                allocated := allocated m'; destroyed := destroyed m' |}
      | bad => bad
      end
  end.

(** The move constructor: a new object at [this] built from [other]. *)
Definition move_construct (this other : nat) (m : memory) : outcome :=
  match objects m !! this, objects m !! other with
  | None, Some other_handle =>
      Ok (set_handle other None (set_handle this other_handle m))
  | _, _ => NoSuchObject
  end.

(** The move assignment operator. *)
Definition move_assign (this other : nat) (m : memory) : outcome :=
  match objects m !! this, objects m !! other with
  | Some handle, Some other_handle =>
      if decide (this = other) then Ok m
      else
        match destroy_if handle m with
        | Ok m' => Ok (set_handle other None (set_handle this other_handle m'))
        | bad => bad
        end
  | _, _ => NoSuchObject
  end.

(** The copy constructor and the copy assignment are deleted, so the
    operations of a program on these objects are the four above. *)
Inductive op : Type :=
| Construct (this : nat) (f : Frame)
| Destructor (this : nat)
| MoveConstruct (this other : nat)
| MoveAssign (this other : nat).

Definition step (o : op) (m : memory) : outcome :=
  match o with
  | Construct this f => construct this f m
  | Destructor this => destructor this m
  | MoveConstruct this other => move_construct this other m
  | MoveAssign this other => move_assign this other m
  end.

Fixpoint exec (ops : list op) (m : memory) : outcome :=
  match ops with
  | [] => Ok m
  | o :: rest =>
      match step o m with
      | Ok m' => exec rest m'
      | bad => bad
      end
  end.

(** Every live frame has one owner and every handle held is live; frames
    are destroyed at most once, and exactly the frames that are gone have
    been destroyed. *)
Record single_owner (m : memory) : Prop := {
  owner_live : ∀ this a, objects m !! this = Some (Some a) → is_Some (frames m !! a);
  owner_unique : ∀ this1 this2 a,
    objects m !! this1 = Some (Some a) → objects m !! this2 = Some (Some a) → this1 = this2;
  owner_exists : ∀ a, is_Some (frames m !! a) → ∃ this, objects m !! this = Some (Some a);
  frames_allocated : ∀ a, is_Some (frames m !! a) → (a < allocated m)%nat;
  destroyed_once : NoDup (destroyed m);
  destroyed_gone : ∀ a, a ∈ destroyed m ↔ (a < allocated m)%nat ∧ frames m !! a = None
}.
End WithFrame.
Arguments memory : clear implicits.
Arguments outcome : clear implicits.
Arguments op : clear implicits.
End Owner.

(** * Properties *)

(** ** Generator *)

Section GeneratorFacts.
Context {T : Type}.
Implicit Types (g : Generator.state T) (b : Generator.body T)
  (p : Generator.promise_type T).

Lemma generator_run_end b p out : Generator.segment_end p (Generator.run b p out).
Proof.
  revert out. induction b as [line rest IH|v rest _| |e]; intros out; simpl.
  - apply IH.
  - by eapply Generator.ends_yielding.
  - by apply Generator.ends_returning.
  - by eapply Generator.ends_throwing.
Qed.

Lemma generator_run_wf b p out :
  Generator.exception p = None → Generator.wf (Generator.run b p out).
Proof.
  intros Hp. unfold Generator.wf.
  destruct (generator_run_end b p out) as [v rest _ Hq|Hs _|e Hs _].
  - left. by rewrite Hq.
  - by right.
  - by right.
Qed.

Lemma generator_create_wf (init : T) b : Generator.wf (Generator.create init b).
Proof. by left. Qed.

Lemma generator_resume_wf g g' :
  Generator.wf g → Generator.resume g = Some g' → Generator.wf g'.
Proof.
  intros [Hn|Hf]; unfold Generator.resume.
  - destruct (Generator.suspended g); intros [= <-]; by apply generator_run_wf.
  - by rewrite Hf.
Qed.

Lemma generator_next_wf g :
  Generator.wf g → Generator.wf (snd (Generator.next g)).
Proof.
  intros Hg. unfold Generator.next.
  destruct (Generator.resume g) as [g'|] eqn:Hr; [|done].
  apply generator_resume_wf in Hr; [|done].
  by destruct (Generator.exception (Generator.promise g')).
Qed.

Lemma generator_live_no_exception g :
  Generator.wf g → Generator.done g = false →
  Generator.exception (Generator.promise g) = None.
Proof.
  intros [Hn|Hf] Hd; [done|]. unfold Generator.done in Hd. by rewrite Hf in Hd.
Qed.

Lemma generator_resume_end g :
  Generator.done g = false →
  ∃ g', Generator.resume g = Some g' ∧ Generator.segment_end (Generator.promise g) g'.
Proof.
  unfold Generator.done, Generator.resume.
  destruct (Generator.suspended g); intros Hd; try done;
    eexists; (split; [done|apply generator_run_end]).
Qed.

(** What [run] leaves behind, read off the body's next segment. *)
Lemma generator_run_segment b p out :
  Generator.run b p out =
  match Generator.segment b with
  | (ls, Generator.stops_at_yield v rest) =>
      {| Generator.promise :=
           {| Generator.current_value := v;
              Generator.exception := Generator.exception p |};
         Generator.suspended := Generator.at_yield rest;
         Generator.stdout := out ++ ls |}
  | (ls, Generator.stops_at_end) =>
      {| Generator.promise := p; Generator.suspended := Generator.at_final;
         Generator.stdout := out ++ ls |}
  | (ls, Generator.stops_at_throw e) =>
      {| Generator.promise :=
           {| Generator.current_value := Generator.current_value p;
              Generator.exception := Some e |};
         Generator.suspended := Generator.at_final;
         Generator.stdout := out ++ ls |}
  end.
Proof.
  revert out. induction b as [line rest IH|v rest _| |e]; intros out; simpl.
  - rewrite IH. destruct (Generator.segment rest) as [ls [v rest'| |e]];
      by rewrite <- app_assoc.
  - by rewrite app_nil_r.
  - by rewrite app_nil_r.
  - by rewrite app_nil_r.
Qed.

(** C2: on a generator whose body has not ended, [next] resumes the
    coroutine, which runs the next segment of the pending body [b] and
    writes its lines.  [next] returns [true] exactly when the coroutine is
    then suspended at a [co_yield], [false] exactly when the body has
    completed, and rethrows the captured exception exactly when the body has
    failed.  When the segment stops at [co_yield v], [next] returns [true],
    the coroutine is suspended just behind that [co_yield] and [value]
    reads [v]; when it reaches the end of the function, [next] returns
    [false] and the promise is untouched; when it throws [e], [next]
    rethrows [e], which the promise now holds. *)
Theorem next_follows_status g :
  Generator.wf g → Generator.done g = false →
  ∃ b g',
    (Generator.suspended g = Generator.at_initial b ∨
     Generator.suspended g = Generator.at_yield b) ∧
    Generator.resume g = Some g' ∧ snd (Generator.next g) = g' ∧
    Generator.stdout g' = Generator.stdout g ++ fst (Generator.segment b) ∧
    (fst (Generator.next g) = Returns true ↔ Generator.status_of g' = Suspended) ∧
    (fst (Generator.next g) = Returns false ↔ Generator.status_of g' = Completed) ∧
    (∀ e, fst (Generator.next g) = Rethrows e ↔
          Generator.status_of g' = Failed ∧
          Generator.exception (Generator.promise g') = Some e) ∧
    match snd (Generator.segment b) with
    | Generator.stops_at_yield v rest =>
        fst (Generator.next g) = Returns true ∧
        Generator.suspended g' = Generator.at_yield rest ∧
        Generator.value g' = Returns v ∧
        Generator.exception (Generator.promise g') = None
    | Generator.stops_at_end =>
        fst (Generator.next g) = Returns false ∧
        Generator.suspended g' = Generator.at_final ∧
        Generator.promise g' = Generator.promise g
    | Generator.stops_at_throw e =>
        fst (Generator.next g) = Rethrows e ∧
        Generator.suspended g' = Generator.at_final ∧
        Generator.exception (Generator.promise g') = Some e ∧
        Generator.current_value (Generator.promise g') =
          Generator.current_value (Generator.promise g)
    end.
Proof.
  intros Hwf Hd.
  pose proof (generator_live_no_exception g Hwf Hd) as Hex.
  assert (∃ b, (Generator.suspended g = Generator.at_initial b ∨
                Generator.suspended g = Generator.at_yield b) ∧
               Generator.resume g =
                 Some (Generator.run b (Generator.promise g) (Generator.stdout g)))
    as (b & Hb & Hr).
  { unfold Generator.done in Hd. unfold Generator.resume.
    destruct (Generator.suspended g) as [b|b|]; [| |done]; exists b; auto. }
  exists b, (Generator.run b (Generator.promise g) (Generator.stdout g)).
  split; [done|]. split; [done|].
  unfold Generator.next, Generator.status_of, Generator.done, Generator.value.
  rewrite Hr, generator_run_segment.
  destruct (Generator.segment b) as [ls [v rest| |e]]; simpl; rewrite ?Hex; simpl.
  - repeat split; try done. by intros [? _].
  - repeat split; try done. by intros [? _].
  - repeat split; try done; [congruence|]. by intros [_ [= ->]].
Qed.

Lemma generator_run_final_keeps_value b p out :
  Generator.suspended (Generator.run b p out) = Generator.at_final →
  Generator.current_value (Generator.promise (Generator.run b p out)) =
  Generator.current_value p.
Proof.
  destruct (generator_run_end b p out) as [v rest Hs _|_ Hp|e _ Hp]; intros Hf.
  - by rewrite Hs in Hf.
  - by rewrite Hp.
  - by rewrite Hp.
Qed.

Lemma generator_resume_final_keeps_value g g' :
  Generator.resume g = Some g' → Generator.done g' = true →
  Generator.value g' = Generator.value g.
Proof.
  unfold Generator.resume, Generator.done, Generator.value.
  destruct (Generator.suspended g); intros [= <-] Hd; f_equal;
    apply generator_run_final_keeps_value;
    by destruct (Generator.suspended (Generator.run _ _ _)).
Qed.

(** A failure raised by the body is rethrown by the [next] call that ran
    into it, and the value read afterwards is the one yielded before. *)
Lemma generator_failure_surfaces_in_next g g' e :
  Generator.resume g = Some g' →
  Generator.exception (Generator.promise g') = Some e →
  Generator.wf g' →
  Generator.next g = (Rethrows e, g') ∧ Generator.done g' = true ∧
  Generator.value g' = Generator.value g.
Proof.
  intros Hr He Hwf. unfold Generator.next. rewrite Hr, He.
  assert (Generator.done g' = true) as Hd.
  { destruct Hwf as [Hn|Hf]; [congruence|]. unfold Generator.done. by rewrite Hf. }
  repeat split; [done|]. by apply generator_resume_final_keeps_value.
Qed.

(** C8 (amended): neither member function checks anything.  [value]
    returns what the promise holds: the initial content before the
    first [next], and after a [next] that returned [false] the same value as
    before that call; [next] on a coroutine that is done is the undefined
    behaviour of resuming it, not a reported error. *)
Theorem value_and_next_are_unchecked g :
  (∀ (init : T) b, Generator.value (Generator.create init b) = Returns init) ∧
  (∀ g', Generator.next g = (Returns false, g') →
         Generator.value g' = Generator.value g) ∧
  (Generator.done g = true → Generator.next g = (Undefined, g)).
Proof.
  split; [done|]. split.
  - intros g'. unfold Generator.next.
    destruct (Generator.resume g) as [g1|] eqn:Hr; [|done].
    destruct (Generator.exception (Generator.promise g1)); [done|].
    intros [= Hd <-]. apply generator_resume_final_keeps_value; [done|].
    by destruct (Generator.done g1).
  - unfold Generator.next, Generator.resume, Generator.done.
    by destruct (Generator.suspended g).
Qed.
End GeneratorFacts.

Lemma next_follows_status_witness :
  ∃ g', Generator.resume (Generator.create 0 (fibonacci 7)) = Some g' ∧
        Generator.status_of g' = Suspended ∧
        Generator.stdout g' =
          ["[Coroutine] Starting Fibonacci generator";
           "[Coroutine] About to yield: 0"].
Proof.
  destruct (next_follows_status (Generator.create 0 (fibonacci 7)))
    as (b & g' & Hb & Hr & _ & Hout & Ht & _).
  - left. reflexivity.
  - reflexivity.
  - exists g'. split; [exact Hr|].
    destruct Hb as [[= <-]|Hb]; [|discriminate Hb].
    split; [|exact Hout].
    apply Ht. unfold Generator.next. rewrite Hr.
    injection Hr as <-. reflexivity.
Defined.

Lemma value_and_next_are_unchecked_witness :
  Generator.value (Generator.advance 8 (Generator.create 0 (fibonacci 7))) =
  Generator.value (Generator.advance 7 (Generator.create 0 (fibonacci 7))).
Proof.
  apply (proj1 (proj2 (value_and_next_are_unchecked
                         (Generator.advance 7 (Generator.create 0 (fibonacci 7)))))).
  reflexivity.
Defined.

(** C8 (as stated) fails: after the eighth [next] on [fibonacci(7)] has
    returned [false], [value] returns the stale 8 instead of failing, and
    before any [next] it returns the promise's initial content. *)
Lemma value_after_completion_is_stale :
  let g0 := Generator.create 0 (fibonacci 7) in
  let g7 := Generator.advance 7 g0 in
  let g8 := Generator.advance 8 g0 in
  Generator.next g7 = (Returns false, g8) ∧
  Generator.value g8 = Returns 8 ∧
  Generator.value g0 = Returns 0 ∧
  ¬ (∃ e, Generator.value g8 = Rethrows e) ∧
  Generator.next g8 = (Undefined, g8).
Proof.
  repeat split; try reflexivity. by intros [e He].
Qed.

(** C6: driven by [while (fib.next()) ... fib.value()], [fibonacci(7)]
    hands out 0, 1, 1, 2, 3, 5, 8; the first seven calls of [next] return
    [true] and the eighth returns [false]. *)
Theorem fibonacci_7_sequence (init : Z) :
  let g0 := Generator.create init (fibonacci 7) in
  fst (Generator.drain 8 g0) = ([0; 1; 1; 2; 3; 5; 8], Some (Returns false)) ∧
  map (λ n, (fst (Generator.next (Generator.advance n g0)),
             Generator.value (Generator.advance (S n) g0))) (seq 0 7) =
    map (λ v, (Returns true, Returns v)) [0; 1; 1; 2; 3; 5; 8] ∧
  fst (Generator.next (Generator.advance 7 g0)) = Returns false ∧
  Generator.status_of (Generator.advance 8 g0) = Completed.
Proof. repeat split; reflexivity. Qed.

Lemma range_loop_empty (start end_ : Z) :
  start >= end_ → Z.to_nat (end_ - start) = 0%nat.
Proof. lia. Qed.

(** C10: [range(start, end)] with [start >= end] yields nothing: the first
    [next] returns [false] and leaves the generator completed; the same
    holds for [fibonacci(0)]. *)
Theorem empty_generators_complete_at_once (start end_ init : Z) :
  start >= end_ →
  let r := Generator.create init (range start end_) in
  let f := Generator.create init (fibonacci 0) in
  fst (Generator.next r) = Returns false ∧
  Generator.done (snd (Generator.next r)) = true ∧
  Generator.status_of (snd (Generator.next r)) = Completed ∧
  fst (Generator.drain 1 r) = ([], Some (Returns false)) ∧
  fst (Generator.next f) = Returns false ∧
  Generator.done (snd (Generator.next f)) = true ∧
  Generator.status_of (snd (Generator.next f)) = Completed ∧
  fst (Generator.drain 1 f) = ([], Some (Returns false)).
Proof.
  intros H. cbv zeta. unfold range. rewrite (range_loop_empty _ _ H).
  repeat split; reflexivity.
Qed.

Lemma empty_generators_complete_at_once_witness :
  fst (Generator.next (Generator.create 0 (range 10 5))) = Returns false.
Proof.
  apply (empty_generators_complete_at_once 10 5 0). lia.
Defined.

(** ** Task and SleepAwaiter *)

Section TaskFacts.
Context {T : Type} (show : T → string).
Implicit Types (t : Task.state T) (b : Task.body T) (p : Task.promise_type T)
  (w : world) (a : SleepAwaiter).

Lemma task_segment_end_same_clock p w w' t' :
  now w' = now w → detached w' = detached w →
  Task.segment_end p w' t' → Task.segment_end p w t'.
Proof.
  intros Hn Hd [a rest ? ? ? Hn' Hd'|v ? ? Hn' Hd'|e ? ? Hn' Hd'];
    rewrite Hn in *; rewrite Hd in *.
  - by eapply Task.ends_awaiting.
  - by eapply Task.ends_with_value.
  - by eapply Task.ends_with_exception.
Qed.

Lemma task_run_end b p w : Task.segment_end p w (Task.run show b p w).
Proof.
  revert w. induction b as [line rest IH|a rest IH|v|e]; intros w; simpl.
  - eapply task_segment_end_same_clock; [| |apply IH]; done.
  - destruct (duration a <=? 0) eqn:Hready.
    + eapply task_segment_end_same_clock; [| |apply IH]; done.
    + eapply Task.ends_awaiting; simpl; try done. lia.
  - by eapply Task.ends_with_value.
  - by eapply Task.ends_with_exception.
Qed.
Lemma task_run_wf b p w :
  Task.exception p = None → Task.wf (Task.run show b p w).
Proof.
  intros Hp. unfold Task.wf.
  destruct (task_run_end b p w) as [a rest _ Hq _ _ _|v Hs _ _ _|e Hs _ _ _].
  - left. by rewrite Hq.
  - by right.
  - by right.
Qed.

Lemma task_create_wf (t0 : Z) (init : T) b : Task.wf (Task.create show t0 init b).
Proof. by apply task_run_wf. Qed.

Lemma task_resume_end t :
  Task.done t = false →
  ∃ t', Task.resume show t = Some t' ∧
        Task.segment_end (Task.promise t) (Task.env t) t'.
Proof.
  unfold Task.done, Task.resume.
  destruct (Task.suspended t) as [b|a rest|]; intros Hd; try done.
  - eexists. split; [done|apply task_run_end].
  - eexists. split; [done|].
    eapply task_segment_end_same_clock; [| |apply task_run_end]; done.
Qed.

Lemma task_wf_done t e :
  Task.wf t → Task.exception (Task.promise t) = Some e → Task.done t = true.
Proof.
  intros [Hn|Hf] He; [congruence|]. unfold Task.done. by rewrite Hf.
Qed.

Lemma task_resume_wf t t' :
  Task.wf t → Task.resume show t = Some t' → Task.wf t'.
Proof.
  intros [Hn|Hf]; unfold Task.resume.
  - destruct (Task.suspended t); intros [= <-]; by apply task_run_wf.
  - by rewrite Hf.
Qed.

Lemma task_get_wf t : Task.wf t → Task.wf (snd (Task.get show t)).
Proof.
  intros Hwf. unfold Task.get.
  destruct (Task.done t); simpl.
  - by destruct (Task.exception (Task.promise t)).
  - destruct (Task.resume show t) as [t'|] eqn:Hr.
    + apply task_resume_wf in Hr; [|done].
      by destruct (Task.exception (Task.promise t')).
    + by destruct (Task.exception (Task.promise t)).
Qed.

(** [get] on a coroutine that is done reads the promise and changes nothing. *)
Lemma task_get_done t :
  Task.done t = true →
  Task.get show t =
    (match Task.exception (Task.promise t) with
     | Some e => Rethrows e
     | None => Returns (Task.value (Task.promise t))
     end, t).
Proof.
  intros Hd. unfold Task.get. rewrite Hd. simpl.
  by destruct (Task.exception (Task.promise t)).
Qed.

(** [get] takes no time, and it starts and ends no thread unless the body
    it resumes suspends again. *)
Lemma task_get_keeps_time t :
  now (Task.env (snd (Task.get show t))) = now (Task.env t).
Proof.
  unfold Task.get. destruct (Task.done t) eqn:Hd; simpl.
  - by destruct (Task.exception (Task.promise t)).
  - destruct (task_resume_end t Hd) as (t' & -> & Hend).
    assert (now (Task.env t') = now (Task.env t)) by (by destruct Hend).
    by destruct (Task.exception (Task.promise t')).
Qed.



(** C7: a [co_await] on [sleep_for(ms)] with [ms <= 0] finds the awaiter
    ready: the body goes on in the same run segment and no thread is
    started; with [ms > 0] the awaiter is not ready, the coroutine stays
    suspended at the [co_await] and one worker is started. *)
Theorem sleep_readiness_check (ms : Z) (rest : Task.body T) p w :
  let a := sleep_for ms in
  (ms <= 0 →
     fst (await_ready a w) = true ∧
     ∃ w', Task.run show (Task.co_await a rest) p w = Task.run show rest p w' ∧
           detached w' = detached w ∧ now w' = now w ∧
           stdout w' = stdout w ++ ["[Awaiter] Checking if sleep is needed...";
                                    "[Awaiter] Resumed after sleep"]) ∧
  (ms > 0 →
     fst (await_ready a w) = false ∧
     let t' := Task.run show (Task.co_await a rest) p w in
     Task.suspended t' = Task.at_await a rest ∧
     Task.promise t' = p ∧
     Task.status_of t' = Suspended ∧
     now (Task.env t') = now w ∧
     detached (Task.env t') = detached w ++ [now w + ms]).
Proof.
  cbv zeta. split; intros Hms; simpl.
  - assert ((ms <=? 0) = true) as -> by lia. split; [done|].
    eexists. split; [done|]. simpl. repeat split. by rewrite <- app_assoc.
  - assert ((ms <=? 0) = false) as -> by lia. done.
Qed.
End TaskFacts.


Lemma sleep_readiness_check_witness :
  fst (await_ready (sleep_for 500) {| stdout := []; now := 0; detached := [] |}) = false ∧
  fst (await_ready (sleep_for 0) {| stdout := []; now := 0; detached := [] |}) = true.
Proof.
  split.
  - apply (proj2 (sleep_readiness_check to_string 500 (Task.co_return 42)
             {| Task.value := 0; Task.exception := None |}
             {| stdout := []; now := 0; detached := [] |})). lia.
  - apply (proj1 (sleep_readiness_check to_string 0 (Task.co_return 42)
             {| Task.value := 0; Task.exception := None |}
             {| stdout := []; now := 0; detached := [] |})). lia.
Defined.

Section TaskResults.
Context {T : Type} (show : T → string).
Implicit Types (t : Task.state T).

Lemma task_get_completed t :
  Task.status_of t = Completed →
  Task.get show t = (Returns (Task.value (Task.promise t)), t).
Proof.
  unfold Task.status_of. intros Hs.
  rewrite task_get_done.
  - destruct (Task.suspended t); try done.
    by destruct (Task.exception (Task.promise t)).
  - unfold Task.done. by destruct (Task.suspended t).
Qed.

(** C4: [get] on [compute_answer()] returns 55 and leaves everything as
    it was, so a second [get] returns 55 again; and on any completed task,
    however often [get] is called, it returns the stored value without
    resuming the coroutine: frame, output and threads stay the same. *)
Theorem get_returns_cached_result t (t0 init : Z) (n : nat) :
  let c := Task.create to_string t0 init compute_answer in
  (Task.get to_string c = (Returns 55, c) ∧
   Task.get to_string (snd (Task.get to_string c)) = (Returns 55, c) ∧
   stdout (Task.env c) =
     ["[Task] Starting computation..."; "[Task] Performing complex calculations...";
      "[Task] Computation complete!"; "[Task Promise] Storing return value: 55"]) ∧
  (Task.status_of t = Completed →
   Nat.iter n (λ s, snd (Task.get show s)) t = t ∧
   Task.get show (Nat.iter n (λ s, snd (Task.get show s)) t) =
     (Returns (Task.value (Task.promise t)), t)).
Proof.
  cbv zeta. split; [repeat split; reflexivity|].
  intros Hs.
  assert (Nat.iter n (λ s, snd (Task.get show s)) t = t) as Hn.
  { induction n as [|n IH]; simpl; [done|]. rewrite IH.
    by rewrite task_get_completed. }
  rewrite Hn. split; [done|]. by apply task_get_completed.
Qed.

Lemma task_get_rethrows t e :
  fst (Task.get show t) = Rethrows e →
  Task.exception (Task.promise (snd (Task.get show t))) = Some e.
Proof.
  unfold Task.get.
  set (s := if negb (Task.done t) then _ else _).
  destruct (Task.exception (Task.promise s)) eqn:He; simpl; [|done].
  by intros [= ->].
Qed.

(** A body with no suspending [co_await] left runs to its end in one
    segment; the promise then holds what the body ends with. *)
Lemma task_run_to_end (b : Task.body T) (p : Task.promise_type T) (w : world) :
  Task.suspensions b = 0%nat →
  Task.suspended (Task.run show b p w) = Task.at_final ∧
  Task.promise (Task.run show b p w) =
    match Task.ending b with
    | Returns v => {| Task.value := v; Task.exception := Task.exception p |}
    | Rethrows e => {| Task.value := Task.value p; Task.exception := Some e |}
    | Undefined => p
    end.
Proof.
  revert w. induction b as [line rest IH|a rest IH|v|e]; intros w Hs; simpl in *.
  - by apply IH.
  - destruct (duration a <=? 0); [by apply IH|done].
  - done.
  - done.
Qed.

(** C5 (amended): a failure raised by the body is stored in the promise
    and does not leave the coroutine.  For a task whose body throws [e],
    in the segment run by the coroutine call or in one run by a later
    [resume], the promise holds [e] and the coroutine is done; [is_ready] is
    then simply [true], as for a body that returns; [get] rethrows [e], and
    every later [get] rethrows the same one and changes nothing.  For a
    generator whose body throws [e] in its next segment, the [next] call
    that runs it rethrows [e], which the promise holds, and [value] goes on
    returning the last value yielded. *)
Theorem failure_is_captured_then_rethrown
    {U : Type} t (g g' : Generator.state U) (e : exn)
    (b rest : Task.body T) (a : SleepAwaiter) (t0 : Z) (init : T)
    (gb : Generator.body U) :
  (Task.wf t → fst (Task.get show t) = Rethrows e →
     let t' := snd (Task.get show t) in
     Task.exception (Task.promise t') = Some e ∧
     Task.is_ready t' = true ∧
     Task.get show t' = (Rethrows e, t')) ∧
  (Task.wf t → Task.exception (Task.promise t) = Some e →
     Task.is_ready t = true ∧ Task.get show t = (Rethrows e, t)) ∧
  (Generator.wf g → Generator.resume g = Some g' →
   Generator.exception (Generator.promise g') = Some e →
     Generator.next g = (Rethrows e, g') ∧
     Generator.done g' = true ∧
     Generator.value g' = Generator.value g) ∧
  (Task.suspensions b = 0%nat →
     Task.is_ready (Task.create show t0 init b) = true) ∧
  (Task.suspensions b = 0%nat → Task.ending b = Rethrows e →
     let c := Task.create show t0 init b in
     Task.promise c = {| Task.value := init; Task.exception := Some e |} ∧
     Task.status_of c = Failed ∧
     Task.is_ready c = true ∧
     Task.get show c = (Rethrows e, c)) ∧
  (Task.exception (Task.promise t) = None →
   Task.suspended t = Task.at_await a rest →
   Task.suspensions rest = 0%nat → Task.ending rest = Rethrows e →
     ∃ t', Task.resume show t = Some t' ∧
           Task.promise t' =
             {| Task.value := Task.value (Task.promise t);
                Task.exception := Some e |} ∧
           Task.status_of t' = Failed ∧
           Task.is_ready t = false ∧ Task.is_ready t' = true ∧
           Task.get show t = (Rethrows e, t') ∧
           Task.get show t' = (Rethrows e, t')) ∧
  (Generator.exception (Generator.promise g) = None →
   Generator.suspended g = Generator.at_initial gb ∨
   Generator.suspended g = Generator.at_yield gb →
   snd (Generator.segment gb) = Generator.stops_at_throw e →
     ∃ g1, Generator.next g = (Rethrows e, g1) ∧
           Generator.promise g1 =
             {| Generator.current_value :=
                  Generator.current_value (Generator.promise g);
                Generator.exception := Some e |} ∧
           Generator.status_of g1 = Failed ∧
           Generator.value g1 = Generator.value g).
Proof.
  assert (∀ s, Task.wf s → Task.exception (Task.promise s) = Some e →
               Task.is_ready s = true ∧ Task.get show s = (Rethrows e, s)) as Hfailed.
  { intros s Hwf He. pose proof (task_wf_done s e Hwf He) as Hd.
    split; [done|]. rewrite task_get_done; [|done]. by rewrite He. }
  split; [|split; [|split; [|split; [|split; [|split]]]]].
  - intros Hwf Hget. cbv zeta.
    pose proof (task_get_rethrows t e Hget) as He.
    split; [done|]. apply Hfailed; [by apply task_get_wf|done].
  - apply Hfailed.
  - intros Hwf Hr He.
    apply generator_failure_surfaces_in_next; [done..|].
    by eapply generator_resume_wf.
  - intros Hs. unfold Task.is_ready, Task.done, Task.create. simpl.
    by destruct (task_run_to_end b {| Task.value := init; Task.exception := None |}
                   {| stdout := []; now := t0; detached := [] |} Hs) as [-> _].
  - intros Hs He. cbv zeta. unfold Task.create. simpl.
    destruct (task_run_to_end b {| Task.value := init; Task.exception := None |}
                {| stdout := []; now := t0; detached := [] |} Hs) as [Hfin Hp].
    rewrite He in Hp. simpl in Hp.
    unfold Task.status_of, Task.is_ready.
    rewrite task_get_done by (unfold Task.done; by rewrite Hfin).
    unfold Task.done. by rewrite Hfin, Hp.
  - intros Hex Hsus Hs He.
    destruct (task_run_to_end rest (Task.promise t) (await_resume a (Task.env t)) Hs)
      as [Hfin Hp].
    rewrite He in Hp.
    eexists. split; [unfold Task.resume; by rewrite Hsus|].
    split; [done|].
    unfold Task.status_of, Task.is_ready, Task.get, Task.resume, Task.done.
    rewrite Hsus. simpl. rewrite Hfin, Hp. simpl. rewrite ?Hfin, ?Hp. simpl. done.
  - intros Hex Hsus Hseg.
    assert (Generator.resume g =
            Some (Generator.run gb (Generator.promise g) (Generator.stdout g)))
      as Hr.
    { unfold Generator.resume. by destruct Hsus as [-> | ->]. }
    unfold Generator.next. rewrite Hr, generator_run_segment.
    destruct (Generator.segment gb) as [ls st]. simpl in Hseg. subst st.
    simpl. eexists. split; [reflexivity|]. by repeat split.
Qed.
End TaskResults.

Lemma get_returns_cached_result_witness :
  let c := Task.create to_string 0 0 compute_answer in
  Task.get to_string (Nat.iter 3 (λ s, snd (Task.get to_string s)) c) =
    (Returns (Task.value (Task.promise c)), c).
Proof.
  apply (proj2 (get_returns_cached_result to_string
                  (Task.create to_string 0 0 compute_answer) 0 0 3)).
  reflexivity.
Defined.

Lemma failure_is_captured_then_rethrown_witness :
  let boom := Exn "boom" in
  let t := Task.create to_string 0 0
             (Task.co_await (sleep_for 10) (Task.throw boom)) in
  let c := Task.create to_string 0 0 (Task.cout "working" (Task.throw boom)) in
  let g := Generator.create 0 (Generator.co_yield 1 (Generator.throw boom)) in
  (Task.is_ready t = false ∧
   Task.is_ready (snd (Task.get to_string t)) = true ∧
   Task.get to_string (snd (Task.get to_string t)) =
     (Rethrows boom, snd (Task.get to_string t))) ∧
  Generator.next (Generator.advance 1 g) = (Rethrows boom, Generator.advance 2 g) ∧
  (Task.is_ready c = true ∧ Task.get to_string c = (Rethrows boom, c)) ∧
  (∃ t', Task.resume to_string t = Some t' ∧ Task.status_of t' = Failed) ∧
  (∃ g1, Generator.next (Generator.advance 1 g) = (Rethrows boom, g1) ∧
         Generator.value g1 = Returns 1).
Proof.
  cbv zeta.
  pose proof (failure_is_captured_then_rethrown to_string
    (Task.create to_string 0 0
       (Task.co_await (sleep_for 10) (Task.throw (Exn "boom"))))
    (Generator.advance 1
       (Generator.create 0 (Generator.co_yield 1 (Generator.throw (Exn "boom")))))
    (Generator.advance 2
       (Generator.create 0 (Generator.co_yield 1 (Generator.throw (Exn "boom")))))
    (Exn "boom")
    (Task.cout "working" (Task.throw (Exn "boom")))
    (Task.throw (Exn "boom")) (sleep_for 10) 0 0
    (Generator.throw (Exn "boom")))
    as (Htask & _ & Hgen & _ & Hcreate & Hresume & Hsegment).
  split; [|split; [|split; [|split]]].
  - split; [reflexivity|].
    apply Htask; [left; reflexivity|reflexivity].
  - apply Hgen; [left; reflexivity|reflexivity|reflexivity].
  - destruct Hcreate as (_ & _ & Hready & Hget); [reflexivity|reflexivity|].
    split; [exact Hready|exact Hget].
  - destruct Hresume as (t' & Hr & _ & Hst & _);
      [reflexivity|reflexivity|reflexivity|reflexivity|].
    exists t'. split; [exact Hr|exact Hst].
  - destruct Hsegment as (g1 & Hn & _ & _ & Hv);
      [reflexivity|right; reflexivity|reflexivity|].
    exists g1. split; [exact Hn|]. rewrite Hv. reflexivity.
Defined.

(** C5 (as stated) fails for generators: once the body of
    [co_yield 1; throw] has failed, which the second [next] reports, [value]
    does not rethrow but returns the 1 yielded before, and a further [next]
    resumes a coroutine that is done instead of rethrowing. *)
Lemma generator_value_hides_failure :
  let boom := Exn "boom" in
  let g0 := Generator.create 0 (Generator.co_yield 1 (Generator.throw boom)) in
  let g1 := Generator.advance 1 g0 in
  let g2 := Generator.advance 2 g0 in
  Generator.next g0 = (Returns true, g1) ∧
  Generator.next g1 = (Rethrows boom, g2) ∧
  Generator.status_of g2 = Failed ∧
  Generator.value g2 = Returns 1 ∧
  Generator.value g2 ≠ Rethrows boom ∧
  Generator.next g2 = (Undefined, g2) ∧
  fst (Generator.next g2) ≠ Rethrows boom.
Proof. repeat split; try reflexivity; discriminate. Qed.

(** When nobody calls [get] before the worker wakes up, the worker's
    [resume] is the only one: it completes the body at [t0 + 500], and a
    [get] called after that returns the stored 42. *)
Lemma delayed_worker_resumes_first (t0 init : Z) :
  let t := Task.create to_string t0 init delayed_computation in
  let t1 := snd (Task.fire to_string t) in
  fst (Task.fire to_string t) = Returns tt ∧
  now (Task.env t1) = t0 + 500 ∧
  detached (Task.env t1) = [] ∧
  Task.get to_string t1 = (Returns 42, t1).
Proof.
  cbv zeta. repeat split; try reflexivity. simpl. lia.
Qed.

(** C1 (the code departs from it): [get] never lets time pass.  Called on
    [delayed_computation()] right after its creation at time [t0], while the
    task is suspended in its 500 ms sleep, it resumes the coroutine itself
    and returns 42 with the clock still at [t0]; the worker is still
    asleep, and when it wakes up at [t0 + 500] its [resume] is a second
    one for the same suspension, on a coroutine that is done. *)
Theorem delayed_get_returns_without_waiting (t0 init : Z) :
  let t := Task.create to_string t0 init delayed_computation in
  let t1 := snd (Task.get to_string t) in
  Task.status_of t = Suspended ∧
  now (Task.env t) = t0 ∧
  detached (Task.env t) = [t0 + 500] ∧
  fst (Task.get to_string t) = Returns 42 ∧
  now (Task.env t1) = t0 ∧
  detached (Task.env t1) = [t0 + 500] ∧
  Task.resume to_string t = Some t1 ∧
  Task.done t1 = true ∧
  fst (Task.fire to_string t1) = Undefined ∧
  stdout (Task.env (snd (Task.fire to_string t1))) =
    ["[Delayed Task] Starting..."; "[Delayed Task] About to sleep for 500ms";
     "[Awaiter] Checking if sleep is needed..."; "[Awaiter] Suspending for 500ms";
     "[Awaiter] Resumed after sleep"; "[Delayed Task] Woke up! Computing result...";
     "[Task Promise] Storing return value: 42";
     "[Awaiter Thread] Sleep complete, resuming coroutine"].
Proof. repeat split; reflexivity. Qed.

(** ** Ownership *)

Section OwnerFacts.
Context {Frame : Type}.
Implicit Types (m : Owner.memory Frame) (f : Frame) (this other a : nat)
  (handle : option nat).

Lemma owner_empty_ok : Owner.single_owner (@Owner.empty Frame).
Proof.
  split; simpl.
  - intros this a. by rewrite lookup_empty.
  - intros this1 this2 a. by rewrite lookup_empty.
  - intros a [f Hf]. by rewrite lookup_empty in Hf.
  - intros a [f Hf]. by rewrite lookup_empty in Hf.
  - apply NoDup_nil_2.
  - intros a. split; [by intros ?%elem_of_nil|]. intros [? _]. lia.
Qed.

Lemma owner_construct_ok m this f :
  Owner.single_owner m → Owner.objects m !! this = None →
  ∃ m', Owner.construct this f m = Owner.Ok m' ∧ Owner.single_owner m' ∧
        Owner.objects m' !! this = Some (Some (Owner.allocated m)) ∧
        Owner.frames m' !! Owner.allocated m = Some f.
Proof.
  intros [Hl Hu He Ha Hn Hg] Hthis. unfold Owner.construct. rewrite Hthis.
  eexists. split; [done|].
  assert (Owner.frames m !! Owner.allocated m = None) as Hfresh.
  { destruct (Owner.frames m !! Owner.allocated m) eqn:Hf; [|done].
    assert (Owner.allocated m < Owner.allocated m)%nat by (apply Ha; eauto). lia. }
  split; [|simpl; by rewrite !lookup_insert_eq].
  split; simpl.
  - intros x a. rewrite lookup_insert_Some, lookup_insert_is_Some.
    intros [[<- [= <-]]|[Hne Hx]]; [by left|].
    right. split; [|by eapply Hl].
    intros <-. apply Hl in Hx. rewrite Hfresh in Hx. by destruct Hx.
  - intros x1 x2 a. rewrite !lookup_insert_Some.
    intros [[<- [= <-]]|[? H1]] [[<- Heq]|[? H2]]; try done.
    + apply Hl in H2. rewrite Hfresh in H2. by destruct H2.
    + injection Heq as <-. apply Hl in H1. rewrite Hfresh in H1. by destruct H1.
    + eauto.
  - intros a. rewrite lookup_insert_is_Some.
    intros [<-|[? Hlive]].
    + exists this. by rewrite lookup_insert_eq.
    + destruct (He a Hlive) as [x Hx]. exists x.
      rewrite lookup_insert_ne; [done|]. intros <-. congruence.
  - intros a. rewrite lookup_insert_is_Some. intros [<-|[? Hlive]]; [lia|].
    apply Ha in Hlive. lia.
  - done.
  - intros a. rewrite Hg, lookup_insert_None. split.
    + intros [Hlt Hnone]. repeat split; [lia|done|lia].
    + intros [Hlt [Hnone Hne]]. split; [lia|done].
Qed.

(** Releasing: the frame held by [this] is destroyed and its handle nulled. *)
Lemma owner_release_ok m this a :
  Owner.single_owner m → Owner.objects m !! this = Some (Some a) →
  Owner.single_owner
    {| Owner.frames := delete a (Owner.frames m);
       Owner.objects := <[this := None]> (Owner.objects m);
       Owner.allocated := Owner.allocated m;
       Owner.destroyed := a :: Owner.destroyed m |}.
Proof.
  intros [Hl Hu He Ha Hn Hg] Hthis. split; simpl.
  - intros x b. rewrite lookup_insert_Some, lookup_delete_is_Some.
    intros [[_ ?]|[Hne Hx]]; [done|]. split; [|by eapply Hl].
    intros <-. by apply Hne, (Hu this x a).
  - intros x1 x2 b. rewrite !lookup_insert_Some.
    intros [[_ ?]|[_ H1]] [[_ ?]|[_ H2]]; try done. by eapply Hu.
  - intros b. rewrite lookup_delete_is_Some. intros [Hne Hlive].
    destruct (He b Hlive) as [x Hx]. exists x.
    rewrite lookup_insert_ne; [done|]. intros <-. congruence.
  - intros b. rewrite lookup_delete_is_Some. intros [_ Hlive]. by apply Ha.
  - apply NoDup_cons_2; [|done]. rewrite Hg. intros [_ Hnone].
    apply Hl in Hthis. rewrite Hnone in Hthis. by destruct Hthis.
  - intros b. rewrite elem_of_cons, Hg, lookup_delete_None. split.
    + intros [->|[Hlt Hnone]]; [|by auto]. split; [|by left]. by eapply Ha, Hl.
    + intros [Hlt [->|Hnone]]; [by left|by right].
Qed.

(** Transfer: [this], which holds nothing, takes over the handle of
    [other], which is left null. *)
Lemma owner_transfer_ok m this other handle :
  Owner.single_owner m → this ≠ other →
  (∀ a, Owner.objects m !! this ≠ Some (Some a)) →
  Owner.objects m !! other = Some handle →
  Owner.single_owner
    (Owner.set_handle other None (Owner.set_handle this handle m)).
Proof.
  intros [Hl Hu He Ha Hn Hg] Hne Hthis Hother. split; simpl; try done.
  - intros x b. rewrite !lookup_insert_Some.
    intros [[_ ?]|[_ [[_ ->]|[_ Hx]]]]; [done|by eapply Hl..].
  - intros x1 x2 b. rewrite !lookup_insert_Some.
    intros [[_ ?]|[Hn1 [[<- ->]|[Hm1 H1]]]] [[_ ?]|[Hn2 [[<- ?]|[Hm2 H2]]]];
      try done.
    + by destruct Hn2; eapply Hu.
    + subst. by destruct Hn1; eapply Hu.
    + by eapply Hu.
  - intros b Hlive. destruct (He b Hlive) as [x Hx].
    destruct (decide (x = other)) as [->|Hxo].
    + exists this. rewrite lookup_insert_ne, lookup_insert_eq; [congruence|done].
    + exists x. rewrite !lookup_insert_ne; [done| |done].
      intros <-. by eapply Hthis.
Qed.

(** The lifetime of an object that holds a null handle ends. *)
Lemma owner_forget_ok m this :
  Owner.single_owner m → Owner.objects m !! this = Some None →
  Owner.single_owner
    {| Owner.frames := Owner.frames m;
       Owner.objects := delete this (Owner.objects m);
       Owner.allocated := Owner.allocated m;
       Owner.destroyed := Owner.destroyed m |}.
Proof.
  intros [Hl Hu He Ha Hn Hg] Hthis. split; simpl; try done.
  - intros x b. rewrite lookup_delete_Some. intros [_ Hx]. by eapply Hl.
  - intros x1 x2 b. rewrite !lookup_delete_Some. intros [_ H1] [_ H2]. by eapply Hu.
  - intros b Hlive. destruct (He b Hlive) as [x Hx]. exists x.
    rewrite lookup_delete_ne; [done|]. intros <-. congruence.
Qed.
Lemma owner_destructor_ok m this handle :
  Owner.single_owner m → Owner.objects m !! this = Some handle →
  ∃ m', Owner.destructor this m = Owner.Ok m' ∧ Owner.single_owner m' ∧
        Owner.objects m' = delete this (Owner.objects m) ∧
        Owner.allocated m' = Owner.allocated m ∧
        match handle with
        | Some a => Owner.frames m' = delete a (Owner.frames m) ∧
                    Owner.destroyed m' = a :: Owner.destroyed m
        | None => Owner.frames m' = Owner.frames m ∧
                  Owner.destroyed m' = Owner.destroyed m
        end.
Proof.
  intros Hinv Hthis. unfold Owner.destructor. rewrite Hthis.
  destruct handle as [a|]; simpl.
  - unfold Owner.destroy.
    destruct (Owner.owner_live m Hinv this a Hthis) as [f ->].
    eexists. split; [done|]. split; [|done].
    pose proof (owner_release_ok m this a Hinv Hthis) as Hrel.
    apply (owner_forget_ok _ this) in Hrel; simpl in *.
    + by rewrite delete_insert_eq in Hrel.
    + by rewrite lookup_insert_eq.
  - eexists. split; [done|]. split; [|done]. by apply owner_forget_ok.
Qed.

Lemma owner_move_construct_ok m this other handle :
  Owner.single_owner m → Owner.objects m !! this = None →
  Owner.objects m !! other = Some handle →
  ∃ m', Owner.move_construct this other m = Owner.Ok m' ∧ Owner.single_owner m' ∧
        Owner.objects m' !! this = Some handle ∧
        Owner.objects m' !! other = Some None ∧
        Owner.frames m' = Owner.frames m ∧
        Owner.destroyed m' = Owner.destroyed m.
Proof.
  intros Hinv Hthis Hother. unfold Owner.move_construct. rewrite Hthis, Hother.
  assert (this ≠ other) as Hne by congruence.
  eexists. split; [done|]. split.
  - apply owner_transfer_ok; [done..| |done]. intros a. congruence.
  - simpl. by rewrite lookup_insert_eq, lookup_insert_ne, lookup_insert_eq.
Qed.

Lemma owner_move_assign_ok m this other handle other_handle :
  Owner.single_owner m → this ≠ other →
  Owner.objects m !! this = Some handle →
  Owner.objects m !! other = Some other_handle →
  ∃ m', Owner.move_assign this other m = Owner.Ok m' ∧ Owner.single_owner m' ∧
        Owner.objects m' !! this = Some other_handle ∧
        Owner.objects m' !! other = Some None ∧
        match handle with
        | Some a => Owner.frames m' = delete a (Owner.frames m) ∧
                    Owner.destroyed m' = a :: Owner.destroyed m
        | None => Owner.frames m' = Owner.frames m ∧
                  Owner.destroyed m' = Owner.destroyed m
        end.
Proof.
  intros Hinv Hne Hthis Hother. unfold Owner.move_assign.
  rewrite Hthis, Hother. rewrite decide_False by done.
  destruct handle as [a|]; simpl.
  - unfold Owner.destroy.
    destruct (Owner.owner_live m Hinv this a Hthis) as [f ->].
    eexists. split; [done|]. split.
    + pose proof (owner_release_ok m this a Hinv Hthis) as Hrel.
      apply (owner_transfer_ok _ this other other_handle) in Hrel; simpl in *.
      * unfold Owner.set_handle in *; simpl in *.
        by rewrite insert_insert_eq in Hrel.
      * done.
      * intros b. by rewrite lookup_insert_eq.
      * by rewrite lookup_insert_ne.
    + simpl. by rewrite lookup_insert_eq, lookup_insert_ne, lookup_insert_eq.
  - eexists. split; [done|]. split.
    + apply owner_transfer_ok; [done..| |done]. intros a. congruence.
    + simpl. by rewrite lookup_insert_eq, lookup_insert_ne, lookup_insert_eq.
Qed.

Lemma owner_step_ok m o :
  Owner.single_owner m →
  Owner.step o m ≠ Owner.DestroyedTwice ∧
  ∀ m', Owner.step o m = Owner.Ok m' → Owner.single_owner m'.
Proof.
  intros Hinv. destruct o as [this f|this|this other|this other]; simpl.
  - destruct (Owner.objects m !! this) as [handle|] eqn:Hthis.
    + unfold Owner.construct. by rewrite Hthis.
    + destruct (owner_construct_ok m this f Hinv Hthis) as (m1 & -> & Hinv1 & _).
      split; [done|]. by intros m' [= <-].
  - destruct (Owner.objects m !! this) as [handle|] eqn:Hthis.
    + destruct (owner_destructor_ok m this handle Hinv Hthis) as (m1 & -> & Hinv1 & _).
      split; [done|]. by intros m' [= <-].
    + unfold Owner.destructor. by rewrite Hthis.
  - destruct (Owner.objects m !! this) as [handle|] eqn:Hthis;
      [unfold Owner.move_construct; by rewrite Hthis|].
    destruct (Owner.objects m !! other) as [other_handle|] eqn:Hother;
      [|unfold Owner.move_construct; by rewrite Hthis, Hother].
    destruct (owner_move_construct_ok m this other other_handle Hinv Hthis Hother)
      as (m1 & -> & Hinv1 & _).
    split; [done|]. by intros m' [= <-].
  - destruct (Owner.objects m !! this) as [handle|] eqn:Hthis;
      [|unfold Owner.move_assign; by rewrite Hthis].
    destruct (Owner.objects m !! other) as [other_handle|] eqn:Hother;
      [|unfold Owner.move_assign; by rewrite Hthis, Hother].
    destruct (decide (this = other)) as [->|Hne].
    + unfold Owner.move_assign. rewrite Hother, decide_True by done.
      split; [done|]. by intros m' [= <-].
    + destruct (owner_move_assign_ok m this other handle other_handle
                  Hinv Hne Hthis Hother) as (m1 & -> & Hinv1 & _).
      split; [done|]. by intros m' [= <-].
Qed.

Lemma owner_exec_ok ops m :
  Owner.single_owner m →
  Owner.exec ops m ≠ Owner.DestroyedTwice ∧
  ∀ m', Owner.exec ops m = Owner.Ok m' → Owner.single_owner m'.
Proof.
  revert m. induction ops as [|o ops IH]; intros m Hinv; simpl.
  - split; [done|]. by intros m' [= <-].
  - destruct (owner_step_ok m o Hinv) as [Hno Hstep].
    destruct (Owner.step o m) as [m1| |]; [|done..].
    apply IH. by apply Hstep.
Qed.
(** C9: in every memory a program reaches by calling coroutines and
    by moving and destroying the objects they return (copying is deleted, so
    there is nothing else it can do), each live frame is held by exactly one
    object and every handle held is null or live; a move constructor and a
    move assignment hand the handle over and leave the source null; no
    operation ever destroys a frame twice, and a destructor destroys the
    frame its object holds, whatever state the coroutine is in, so that once
    all objects are gone every frame has been destroyed exactly once. *)
Theorem handle_has_one_owner (ops : list (Owner.op Frame)) m :
  Owner.exec ops Owner.empty = Owner.Ok m →
  (∀ a, is_Some (Owner.frames m !! a) →
     ∃ this, Owner.objects m !! this = Some (Some a) ∧
             ∀ this', Owner.objects m !! this' = Some (Some a) → this' = this) ∧
  (∀ this a, Owner.objects m !! this = Some (Some a) →
     is_Some (Owner.frames m !! a)) ∧
  (∀ more, Owner.exec more m ≠ Owner.DestroyedTwice) ∧
  NoDup (Owner.destroyed m) ∧
  (∀ a, a ∈ Owner.destroyed m ↔
        (a < Owner.allocated m)%nat ∧ Owner.frames m !! a = None) ∧
  (Owner.objects m = ∅ →
     Owner.frames m = ∅ ∧
     ∀ a, (a < Owner.allocated m)%nat → a ∈ Owner.destroyed m) ∧
  (∀ this other handle,
     Owner.objects m !! this = None → Owner.objects m !! other = Some handle →
     ∃ m', Owner.move_construct this other m = Owner.Ok m' ∧
           Owner.objects m' !! this = Some handle ∧
           Owner.objects m' !! other = Some None ∧
           Owner.frames m' = Owner.frames m ∧
           Owner.destroyed m' = Owner.destroyed m) ∧
  (∀ this other handle other_handle,
     this ≠ other → Owner.objects m !! this = Some handle →
     Owner.objects m !! other = Some other_handle →
     ∃ m', Owner.move_assign this other m = Owner.Ok m' ∧
           Owner.objects m' !! this = Some other_handle ∧
           Owner.objects m' !! other = Some None ∧
           match handle with
           | Some a => Owner.frames m' = delete a (Owner.frames m) ∧
                       Owner.destroyed m' = a :: Owner.destroyed m
           | None => Owner.frames m' = Owner.frames m ∧
                     Owner.destroyed m' = Owner.destroyed m
           end) ∧
  (∀ this handle,
     Owner.objects m !! this = Some handle →
     ∃ m', Owner.destructor this m = Owner.Ok m' ∧
           Owner.objects m' !! this = None ∧
           match handle with
           | Some a => Owner.frames m' !! a = None ∧
                       Owner.destroyed m' = a :: Owner.destroyed m
           | None => Owner.frames m' = Owner.frames m ∧
                     Owner.destroyed m' = Owner.destroyed m
           end).
Proof.
  intros Hexec.
  assert (Owner.single_owner m) as Hinv.
  { by apply (owner_exec_ok ops Owner.empty owner_empty_ok). }
  pose proof Hinv as [Hl Hu He Ha Hn Hg].
  split; [|split; [|split; [|split; [|split; [|split; [|split; [|split]]]]]]].
  - intros a Hlive. destruct (He a Hlive) as [this Hthis].
    exists this. split; [done|]. intros this' Hthis'. by eapply Hu.
  - done.
  - intros more. by apply owner_exec_ok.
  - done.
  - done.
  - intros Hnone.
    assert (Owner.frames m = ∅) as Hempty.
    { apply map_empty. intros a.
      destruct (Owner.frames m !! a) as [f|] eqn:Hf; [|done].
      destruct (He a) as [this Hthis]; [by eauto|].
      by rewrite Hnone, lookup_empty in Hthis. }
    split; [done|]. intros a Hlt. apply Hg. by rewrite Hempty, lookup_empty.
  - intros this other handle Hthis Hother.
    destruct (owner_move_construct_ok m this other handle Hinv Hthis Hother)
      as (m' & ? & _ & ?). by exists m'.
  - intros this other handle other_handle Hne Hthis Hother.
    destruct (owner_move_assign_ok m this other handle other_handle
                Hinv Hne Hthis Hother) as (m' & ? & _ & ?). by exists m'.
  - intros this handle Hthis.
    destruct (owner_destructor_ok m this handle Hinv Hthis)
      as (m' & ? & _ & Hobj & _ & Hrest).
    exists m'. split; [done|]. split; [by rewrite Hobj, lookup_delete_eq|].
    destruct handle as [a|]; [|done].
    destruct Hrest as [-> ?]. by rewrite lookup_delete_eq.
Qed.
End OwnerFacts.

Lemma handle_has_one_owner_witness :
  let fib := Generator.create 0 (fibonacci 7) in
  let rng := Generator.advance 2 (Generator.create 0 (range 5 10)) in
  let m := {| Owner.frames := ∅; Owner.objects := ∅;
              Owner.allocated := 2; Owner.destroyed := [0%nat; 1%nat] |} in
  Owner.exec [Owner.Construct 1 fib; Owner.MoveConstruct 2 1;
              Owner.Construct 3 rng; Owner.MoveAssign 3 2; Owner.MoveAssign 3 3;
              Owner.Destructor 3; Owner.Destructor 2; Owner.Destructor 1]
    Owner.empty = Owner.Ok m ∧
  NoDup (Owner.destroyed m) ∧
  ∀ a, (a < 2)%nat → a ∈ Owner.destroyed m.
Proof.
  cbv zeta.
  assert (Owner.exec [Owner.Construct 1 (Generator.create 0 (fibonacci 7));
              Owner.MoveConstruct 2 1;
              Owner.Construct 3 (Generator.advance 2 (Generator.create 0 (range 5 10)));
              Owner.MoveAssign 3 2; Owner.MoveAssign 3 3;
              Owner.Destructor 3; Owner.Destructor 2; Owner.Destructor 1]
    Owner.empty = Owner.Ok {| Owner.frames := ∅; Owner.objects := ∅;
              Owner.allocated := 2; Owner.destroyed := [0%nat; 1%nat] |}) as Hexec
    by reflexivity.
  split; [exact Hexec|].
  destruct (handle_has_one_owner _ _ Hexec) as (_ & _ & _ & Hn & _ & Hall & _).
  split; [exact Hn|]. apply Hall. reflexivity.
Defined.

(** ** What a driver reads from a generator *)

Section GeneratorTraces.
Context {T : Type}.
Implicit Types (g : Generator.state T) (b : Generator.body T)
  (p : Generator.promise_type T).

Lemma generator_drain_from_yield b p out fuel :
  Generator.exception p = None →
  (length (Generator.yields b) < fuel)%nat →
  ∃ g', Generator.drain fuel
          {| Generator.promise := p; Generator.suspended := Generator.at_yield b;
             Generator.stdout := out |} =
          (Generator.yields b, Some (Generator.last_next b), g') ∧
        Generator.done g' = true ∧
        Generator.stdout g' = out ++ Generator.lines b.
Proof.
  revert p out fuel.
  induction b as [line rest IH|v rest IH| |e]; intros p out fuel Hp Hfuel.
  - destruct (IH p (out ++ [line]) fuel Hp Hfuel) as (g' & Hd & Hdone & Hout).
    exists g'. split; [|split; [done|]].
    + etrans; [|exact Hd]. destruct fuel as [|fuel]; [lia|]. reflexivity.
    + rewrite Hout. simpl. by rewrite <- app_assoc.
  - destruct fuel as [|fuel]; [simpl in Hfuel; lia|].
    destruct (IH (Generator.yield_value v p) out fuel) as (g' & Hd & Hdone & Hout).
    { done. }
    { simpl in Hfuel. lia. }
    exists g'. split; [|done].
    simpl. unfold Generator.next. simpl. rewrite Hp. simpl.
    fold (Generator.yield_value v p).
    by rewrite Hd.
  - destruct fuel as [|fuel]; [simpl in Hfuel; lia|].
    eexists. simpl. unfold Generator.next, Generator.last_next. simpl.
    unfold Generator.return_void. rewrite Hp. simpl.
    split; [done|]. split; [done|]. by rewrite app_nil_r.
  - destruct fuel as [|fuel]; [simpl in Hfuel; lia|].
    eexists. simpl. unfold Generator.next. simpl.
    split; [done|]. split; [done|]. by rewrite app_nil_r.
Qed.
Lemma generator_drain_from_point g b (fuel : nat) :
  Generator.suspended g = Generator.at_initial b ∨
  Generator.suspended g = Generator.at_yield b →
  Generator.exception (Generator.promise g) = None →
  (length (Generator.yields b) < fuel)%nat →
  ∃ g', Generator.drain fuel g =
          (Generator.yields b, Some (Generator.last_next b), g') ∧
        Generator.done g' = true ∧
        Generator.stdout g' = Generator.stdout g ++ Generator.lines b.
Proof.
  intros Hs Hp Hfuel.
  destruct (generator_drain_from_yield b (Generator.promise g)
              (Generator.stdout g) fuel Hp Hfuel) as (g' & Hd & Hrest).
  exists g'. split; [|done]. rewrite <- Hd.
  destruct fuel as [|fuel]; [lia|].
  assert (Generator.next g =
          Generator.next {| Generator.promise := Generator.promise g;
                            Generator.suspended := Generator.at_yield b;
                            Generator.stdout := Generator.stdout g |}) as Hnext.
  { unfold Generator.next, Generator.resume. by destruct Hs as [->| ->]. }
  simpl. by rewrite Hnext.
Qed.

(** X1: the driver loop [while (g.next()) ... g.value()] on a generator
    that has not failed reads exactly the values the rest of its body
    yields, in order; the [next] that ends the loop returns [false], or
    rethrows the exception the body ends with; the generator is then done,
    and the lines of the body have been written once each, in order. *)
Theorem driver_reads_what_the_body_yields g b (fuel : nat) :
  Generator.suspended g = Generator.at_initial b ∨
  Generator.suspended g = Generator.at_yield b →
  Generator.exception (Generator.promise g) = None →
  (length (Generator.yields b) < fuel)%nat →
  ∃ g', Generator.drain fuel g =
          (Generator.yields b, Some (Generator.last_next b), g') ∧
        Generator.done g' = true ∧
        Generator.stdout g' = Generator.stdout g ++ Generator.lines b.
Proof. apply generator_drain_from_point. Qed.
End GeneratorTraces.

Lemma driver_reads_what_the_body_yields_witness :
  fst (Generator.drain 4 (Generator.create ""%string lifecycle_demo)) =
    (["First"; "Second"; "Third"]%string, Some (Returns false)).
Proof.
  destruct (driver_reads_what_the_body_yields
              (Generator.create ""%string lifecycle_demo) lifecycle_demo 4)
    as (g' & -> & _).
  - left. reflexivity.
  - reflexivity.
  - simpl. lia.
  - reflexivity.
Defined.

Lemma range_loop_yields (n : nat) (i : Z) :
  Generator.yields (range_loop n i) = map (λ k, i + Z.of_nat k) (seq 0 n) ∧
  Generator.ending (range_loop n i) = None.
Proof.
  revert i. induction n as [|n IH]; intros i; [done|].
  destruct (IH (i + 1)) as [Hy He]. split; [|done].
  change (Generator.yields (range_loop (S n) i))
    with (i :: Generator.yields (range_loop n (i + 1))).
  rewrite Hy. simpl. f_equal; [lia|].
  rewrite <- seq_shift, map_map. apply map_ext. intros k. lia.
Qed.

(** X2: [range(start, end)] hands the driver loop the integers from
    [start] up to, but not including, [end], in increasing order: [end -
    start] of them, none when [start >= end]; the [next] after the last one
    returns [false]. *)
Theorem range_yields_the_interval (start end_ init : Z) :
  let n := Z.to_nat (end_ - start) in
  let values := map (λ k, start + Z.of_nat k) (seq 0 n) in
  (∃ g', Generator.drain (S n) (Generator.create init (range start end_)) =
           (values, Some (Returns false), g') ∧
         Generator.done g' = true) ∧
  Forall (λ v, start <= v < end_) values ∧
  Z.of_nat (length values) = Z.max 0 (end_ - start).
Proof.
  cbv zeta. destruct (range_loop_yields (Z.to_nat (end_ - start)) start) as [Hy He].
  split; [|split].
  - destruct (generator_drain_from_point
                (Generator.create init (range start end_)) (range start end_)
                (S (Z.to_nat (end_ - start)))) as (g' & Hd & Hdone & _).
    + by left.
    + done.
    + unfold range. simpl. rewrite Hy, length_map, length_seq. lia.
    + exists g'. split; [|done]. rewrite Hd. unfold range, Generator.last_next.
      simpl. by rewrite Hy, He.
  - apply Forall_forall. intros v Hv.
    apply list_elem_of_In, in_map_iff in Hv as (k & <- & Hk).
    apply in_seq in Hk. lia.
  - rewrite length_map, length_seq. lia.
Qed.

Lemma fib_SS (n : nat) : fib (S (S n)) = fib (S n) + fib n.
Proof. reflexivity. Qed.

Lemma fib_pairs (n : nat) :
  Nat.iter n (λ ab : Z * Z, (snd ab, fst ab + snd ab)) (0, 1) = (fib n, fib (S n)).
Proof.
  induction n as [|n IH]; [done|].
  rewrite Nat.iter_succ, IH, fib_SS. cbn [fst snd]. f_equal. lia.
Qed.

Lemma fib_nonneg (n : nat) : 0 <= fib n ∧ 0 <= fib (S n).
Proof.
  induction n as [|n [IH1 IH2]]; [done|].
  split; [done|]. rewrite fib_SS. lia.
Qed.

Lemma fib_mono (n m : nat) : (n <= m)%nat → fib n <= fib m.
Proof.
  induction 1 as [|m _ IH]; [lia|].
  etrans; [exact IH|].
  destruct m as [|m]; [done|].
  rewrite fib_SS. pose proof (fib_nonneg m). lia.
Qed.

Lemma fib_below_limit (n m : nat) :
  (n <= m)%nat → m = 46%nat → fib n <= 1836311903.
Proof.
  intros Hnm Hm. etrans; [exact (fib_mono n m Hnm)|].
  assert (fib m = fst (Nat.iter m (λ ab : Z * Z, (snd ab, fst ab + snd ab)) (0, 1)))
    as -> by (by rewrite fib_pairs).
  rewrite Hm. apply Z.leb_le. vm_compute. reflexivity.
Qed.

Lemma fib_fits_int (n : nat) : (n <= 46)%nat → wrap_int (fib n) = fib n.
Proof.
  intros Hn. pose proof (fib_below_limit n 46 Hn eq_refl) as Hle.
  pose proof (fib_nonneg n) as [Hge _].
  unfold wrap_int. rewrite Z.mod_small; lia.
Qed.

Lemma fibonacci_loop_yields (n i : nat) :
  (i + n <= 45)%nat →
  Generator.yields (fibonacci_loop n (fib i) (fib (S i))) = map fib (seq i n) ∧
  Generator.ending (fibonacci_loop n (fib i) (fib (S i))) = None.
Proof.
  revert i. induction n as [|n IH]; intros i Hi; [done|].
  assert (int_add (fib i) (fib (S i)) = fib (S (S i))) as Hadd.
  { unfold int_add. rewrite fib_SS, (Z.add_comm (fib i)), <- fib_SS.
    apply fib_fits_int. lia. }
  destruct (IH (S i)) as [Hy He]; [lia|].
  change (Generator.yields (fibonacci_loop (S n) (fib i) (fib (S i))))
    with (fib i ::
          Generator.yields (fibonacci_loop n (fib (S i)) (int_add (fib i) (fib (S i))))).
  change (Generator.ending (fibonacci_loop (S n) (fib i) (fib (S i))))
    with (Generator.ending
            (fibonacci_loop n (fib (S i)) (int_add (fib i) (fib (S i))))).
  rewrite Hadd. split; [|done]. by rewrite Hy.
Qed.

(** X3: for [count <= 45], where no addition of the loop leaves the range
    of [int], [fibonacci(count)] hands the driver loop the first [count]
    Fibonacci numbers F(0), F(1), ..., in order (none when [count <= 0]),
    and the [next] after the last one returns [false]. *)
Theorem fibonacci_yields_fibonacci_numbers (count init : Z) :
  count <= 45 →
  ∃ g', Generator.drain (S (Z.to_nat count))
          (Generator.create init (fibonacci count)) =
          (map fib (seq 0 (Z.to_nat count)), Some (Returns false), g') ∧
        Generator.done g' = true.
Proof.
  intros Hcount.
  destruct (fibonacci_loop_yields (Z.to_nat count) 0) as [Hy He]; [lia|].
  change (fib 0) with 0 in Hy, He. change (fib 1) with 1 in Hy, He.
  destruct (generator_drain_from_point
              (Generator.create init (fibonacci count)) (fibonacci count)
              (S (Z.to_nat count))) as (g' & Hd & Hdone & _).
  - by left.
  - done.
  - unfold fibonacci. simpl. rewrite Hy, length_map, length_seq. lia.
  - exists g'. split; [|done]. rewrite Hd. unfold fibonacci, Generator.last_next.
    simpl. by rewrite Hy, He.
Qed.

Lemma fibonacci_yields_fibonacci_numbers_witness :
  ∃ g', Generator.drain 11 (Generator.create 0 (fibonacci 10)) =
          ([0; 1; 1; 2; 3; 5; 8; 13; 21; 34], Some (Returns false), g') ∧
        Generator.done g' = true.
Proof.
  apply (fibonacci_yields_fibonacci_numbers 10 0). lia.
Defined.

(** ** More on tasks and their workers *)

Section TaskWorkers.
Context {T : Type} (show : T → string).
Implicit Types (t : Task.state T) (b : Task.body T) (p : Task.promise_type T)
  (w : world).

(** X4: [resume] on a task that is not done takes no time and starts at
    most one worker: exactly one, due [duration] after the current time,
    when the body stops in a [co_await] whose duration is positive, and none
    when the body runs to its end. *)
Theorem resume_starts_one_worker_per_suspension t :
  Task.done t = false →
  ∃ t', Task.resume show t = Some t' ∧
        now (Task.env t') = now (Task.env t) ∧
        ((∃ a rest, Task.suspended t' = Task.at_await a rest ∧ duration a > 0 ∧
                    Task.promise t' = Task.promise t ∧
                    detached (Task.env t') =
                      detached (Task.env t) ++ [now (Task.env t) + duration a]) ∨
         (Task.done t' = true ∧
          detached (Task.env t') = detached (Task.env t))).
Proof.
  intros Hd. destruct (task_resume_end show t Hd) as (t' & Hr & Hend).
  exists t'. split; [done|].
  destruct Hend as [a rest Hs Hp Hpos Hn Hw|v Hs Hp Hn Hw|e Hs Hp Hn Hw];
    (split; [done|]).
  - left. by exists a, rest.
  - right. unfold Task.done. by rewrite Hs.
  - right. unfold Task.done. by rewrite Hs.
Qed.

(** X5: [get] resumes a suspended task once and does not look whether
    that finished the body: when the body suspends again, [get] returns
    what the promise's [value] member held before, which no [co_return] has
    set, and the task is still not ready. *)
Theorem get_returns_unset_value_when_suspended_again t t' :
  Task.done t = false →
  Task.exception (Task.promise t) = None →
  Task.resume show t = Some t' →
  Task.done t' = false →
  Task.get show t = (Returns (Task.value (Task.promise t)), t') ∧
  Task.is_ready t' = false.
Proof.
  intros Hd Hex Hr Hd'. unfold Task.get, Task.is_ready. rewrite Hd, Hr. simpl.
  destruct (task_resume_end show t Hd) as (t1 & Hr1 & Hend).
  rewrite Hr in Hr1. injection Hr1 as <-.
  destruct Hend as [a rest Hs Hp _ _ _|v Hs _ _ _|e Hs _ _ _].
  - by rewrite Hp, Hex.
  - unfold Task.done in Hd'. by rewrite Hs in Hd'.
  - unfold Task.done in Hd'. by rewrite Hs in Hd'.
Qed.

Lemma task_get_keeps_workers t :
  ∃ more, detached (Task.env (snd (Task.get show t))) =
          detached (Task.env t) ++ more.
Proof.
  unfold Task.get. destruct (Task.done t) eqn:Hd; simpl.
  - exists []. rewrite app_nil_r.
    by destruct (Task.exception (Task.promise t)).
  - destruct (task_resume_end show t Hd) as (t' & -> & Hend).
    assert (∃ more, detached (Task.env t') = detached (Task.env t) ++ more)
      as [more Hmore].
    { destruct Hend as [a rest _ _ _ _ Hw|v _ _ _ Hw|e _ _ _ Hw].
      - by eexists.
      - exists []. by rewrite app_nil_r.
      - exists []. by rewrite app_nil_r. }
    exists more. by destruct (Task.exception (Task.promise t')).
Qed.

(** X6: [get] neither waits for nor cancels the workers that are asleep:
    they are all still there when it returns.  So whenever [get] leaves the
    coroutine done while a worker is asleep, that worker's [resume], when it
    wakes up, is one on a coroutine that is done: undefined behaviour. *)
Theorem get_leaves_workers_asleep t (wake : Z) (others : list Z) :
  detached (Task.env t) = wake :: others →
  Task.done (snd (Task.get show t)) = true →
  (∃ more, detached (Task.env (snd (Task.get show t))) = wake :: others ++ more) ∧
  fst (Task.fire show (snd (Task.get show t))) = Undefined.
Proof.
  intros Hw Hdone. destruct (task_get_keeps_workers t) as [more Hmore].
  rewrite Hw in Hmore. split; [by exists more|].
  unfold Task.fire. rewrite Hmore. simpl.
  unfold Task.worker, Task.resume. simpl.
  unfold Task.done in Hdone.
  by destruct (Task.suspended (snd (Task.get show t))).
Qed.

Lemma task_run_by_workers b p w :
  Task.exception p = None → detached w = [] →
  ∃ t', Task.fire_all show (Task.suspensions b) (Task.run show b p w) =
          (Returns tt, t') ∧
        Task.done t' = true ∧
        now (Task.env t') = now w + Task.total_sleep b ∧
        detached (Task.env t') = [] ∧
        Task.get show t' = (Task.ending b, t').
Proof.
  intros Hp. revert w.
  induction b as [line rest IH|a rest IH|v|e]; intros w Hw.
  - destruct (IH (print line w) Hw) as (t' & ? & ? & ? & ?). by exists t'.
  - simpl. destruct (duration a <=? 0) eqn:Hready.
    + destruct (IH (await_resume a (print "[Awaiter] Checking if sleep is needed..." w)) Hw)
        as (t' & ? & ? & Hn & ? & ?).
      exists t'. repeat split; try done.
    + set (w3 := await_resume a
                   (print "[Awaiter Thread] Sleep complete, resuming coroutine"
                      {| stdout := stdout w ++ ["[Awaiter] Checking if sleep is needed...";
                                                ("[Awaiter] Suspending for " ++
                                                 to_string (duration a) ++ "ms")%string];
                         now := now w + duration a;
                         detached := [] |})).
      destruct (IH w3) as (t' & Hf & ? & Hn & ? & ?); [done|].
      exists t'. split; [|repeat split; try done].
      * rewrite <- Hf. simpl. unfold Task.fire. simpl. rewrite Hw. simpl.
        unfold Task.worker, Task.resume. simpl.
        rewrite Z.max_r by lia. unfold w3, await_resume, print. simpl.
        by rewrite <- !app_assoc.
      * rewrite Hn. unfold w3. simpl. by rewrite Z.add_assoc.
  - eexists. simpl. split; [done|]. split; [done|]. split; [simpl; lia|]. split; [done|].
    rewrite task_get_done by done. simpl. by rewrite Hp.
  - eexists. simpl. split; [done|]. split; [done|]. split; [simpl; lia|]. split; [done|].
    by rewrite task_get_done.
Qed.

(** X7: when [get] is not called before the workers have run, the workers
    alone bring any task to its end: each suspension is resumed by its own
    worker, none of these [resume] calls is undefined, the body is done at
    the creation time plus its positive sleep durations with no worker left,
    and [get] then returns the value of the [co_return], or rethrows the
    exception, the body ends with. *)
Theorem workers_alone_complete_the_task (t0 : Z) (init : T) b :
  ∃ t', Task.fire_all show (Task.suspensions b) (Task.create show t0 init b) =
          (Returns tt, t') ∧
        Task.done t' = true ∧
        now (Task.env t') = t0 + Task.total_sleep b ∧
        detached (Task.env t') = [] ∧
        Task.get show t' = (Task.ending b, t').
Proof. by apply task_run_by_workers. Qed.
End TaskWorkers.

Lemma get_returns_unset_value_when_suspended_again_witness :
  let t := Task.create to_string 0 0
             (Task.co_await (sleep_for 10)
                (Task.co_await (sleep_for 20) (Task.co_return 7))) in
  fst (Task.get to_string t) = Returns 0 ∧
  Task.is_ready (snd (Task.get to_string t)) = false.
Proof.
  cbv zeta.
  destruct (get_returns_unset_value_when_suspended_again to_string
    (Task.create to_string 0 0
       (Task.co_await (sleep_for 10)
          (Task.co_await (sleep_for 20) (Task.co_return 7))))
    (snd (Task.get to_string
       (Task.create to_string 0 0
          (Task.co_await (sleep_for 10)
             (Task.co_await (sleep_for 20) (Task.co_return 7)))))))
    as [Hget Hready]; try reflexivity.
  split; [|exact Hready]. rewrite Hget. reflexivity.
Defined.

Lemma resume_starts_one_worker_per_suspension_witness :
  ∃ t', Task.resume to_string (Task.create to_string 0 0 delayed_computation) = Some t' ∧
        now (Task.env t') = 0.
Proof.
  destruct (resume_starts_one_worker_per_suspension to_string
              (Task.create to_string 0 0 delayed_computation))
    as (t' & Hr & Hn & _).
  - reflexivity.
  - exists t'. split; [exact Hr|exact Hn].
Defined.

Lemma get_leaves_workers_asleep_witness :
  fst (Task.fire to_string
         (snd (Task.get to_string (Task.create to_string 0 0 delayed_computation)))) =
  Undefined.
Proof.
  apply (get_leaves_workers_asleep to_string
           (Task.create to_string 0 0 delayed_computation) 500 []).
  - reflexivity.
  - reflexivity.
Defined.

(** ** format_result *)

Lemma to_string_parses_back (z : Z) :
  NilZero.int_of_string (to_string z) = Some (Z.to_int z).
Proof.
  unfold to_string. apply NilZero.isi.
  - destruct z as [|q|q]; simpl; try discriminate.
    intros [= H]. by apply (Unsigned.to_uint_nonnil q).
  - destruct z as [|q|q]; simpl; try discriminate.
    intros [= H]. by apply (Unsigned.to_uint_nonnil q).
Qed.

Lemma to_string_inj (x y : Z) : to_string x = to_string y → x = y.
Proof.
  intros H. apply (f_equal NilZero.int_of_string) in H.
  rewrite !to_string_parses_back in H. injection H as H.
  by rewrite <- (DecimalZ.of_to x), <- (DecimalZ.of_to y), H.
Qed.

(** X8: [format_result(value)] has run to its [co_return] when the call
    returns: the task is ready, no thread was started and no time has
    passed; [get] returns "The answer is: " followed by the decimal digits
    of [value], and two different values never give the same text. *)
Theorem format_result_text (value other t0 : Z) (init : string) :
  let t := Task.create id t0 init (format_result value) in
  Task.is_ready t = true ∧
  detached (Task.env t) = [] ∧
  now (Task.env t) = t0 ∧
  Task.get id t = (Returns ("The answer is: " ++ to_string value)%string, t) ∧
  (fst (Task.get id (Task.create id t0 init (format_result other))) =
   fst (Task.get id t) → other = value).
Proof.
  cbv zeta. repeat split.
  simpl. intros [= H]. by apply to_string_inj.
Qed.

Lemma format_result_text_witness :
  Task.get id (Task.create id 0 ""%string (format_result 42)) =
    (Returns "The answer is: 42"%string,
     Task.create id 0 ""%string (format_result 42)) ∧
  ∀ other,
    fst (Task.get id (Task.create id 0 ""%string (format_result other))) =
    Returns "The answer is: 42"%string → other = 42.
Proof.
  pose proof (format_result_text 42) as H. split.
  - apply (H 0 0 ""%string).
  - intros other. apply (H other 0 ""%string).
Defined.

(** ** Moving a handle around *)

Section OwnerMoves.
Context {Frame : Type}.
Implicit Types (m : Owner.memory Frame) (this other a tmp : nat)
  (handle : option nat).

(** X9: moving an object into a temporary, move-assigning the temporary
    back and destroying the temporary leaves memory exactly as it was: the
    object has its handle again, no frame was destroyed and none is left
    without owner; and a move assignment of an object to itself changes
    nothing. *)
Theorem move_out_and_back_restores_memory m a tmp handle :
  Owner.objects m !! a = Some handle →
  Owner.objects m !! tmp = None →
  Owner.exec [Owner.MoveConstruct tmp a; Owner.MoveAssign a tmp;
              Owner.Destructor tmp] m = Owner.Ok m ∧
  Owner.exec [Owner.MoveAssign a a] m = Owner.Ok m.
Proof.
  intros Ha Htmp. assert (a ≠ tmp) as Hne by congruence. split.
  - simpl. unfold Owner.move_construct. rewrite Htmp, Ha.
    unfold Owner.move_assign. simpl.
    rewrite lookup_insert_eq, lookup_insert_ne, lookup_insert_eq by done.
    rewrite decide_False by done. simpl.
    unfold Owner.destructor. simpl. rewrite lookup_insert_eq. simpl.
    destruct m as [frames objects allocated destroyed]; simpl in *. do 2 f_equal.
    apply map_eq. intros x.
    destruct (decide (x = tmp)) as [->|Hx].
    + by rewrite lookup_delete_eq.
    + rewrite lookup_delete_ne, lookup_insert_ne by done.
      destruct (decide (x = a)) as [->|Hxa].
      * by rewrite lookup_insert_eq.
      * by rewrite !lookup_insert_ne.
  - simpl. unfold Owner.move_assign. rewrite Ha. by rewrite decide_True.
Qed.
End OwnerMoves.

Lemma move_out_and_back_restores_memory_witness :
  let m := {| Owner.frames := {[ 0%nat := Generator.create 0 (fibonacci 7) ]};
              Owner.objects := {[ 1%nat := Some 0%nat ]};
              Owner.allocated := 1; Owner.destroyed := [] |} in
  Owner.exec [Owner.MoveConstruct 2 1; Owner.MoveAssign 1 2; Owner.Destructor 2] m =
    Owner.Ok m.
Proof.
  apply (move_out_and_back_restores_memory
           {| Owner.frames := {[ 0%nat := Generator.create 0 (fibonacci 7) ]};
              Owner.objects := {[ 1%nat := Some 0%nat ]};
              Owner.allocated := 1; Owner.destroyed := [] |} 1 2 (Some 0%nat));
    reflexivity.
Defined.
